(** * Sentinel-2 NDVI tile server: the Cloud Function of
      cloud-functions/ee-tiles/main.py

    The handler [get_tiles] validates two query parameters, makes sure the
    Earth Engine session exists, assembles a filter / mask / reduce
    expression with the Earth Engine client, asks the service for a map id
    and shapes a JSON response.

    The embedding has three layers.
    - [ee]: the objects the Earth Engine client hands back.  The client
      builds an expression graph locally and the service evaluates it, so an
      object is the term of the calls that produced it.
    - the monad [M]: Python's control flow.  A computation reads and writes
      the module global [_ee_initialized], issues calls to the client
      libraries, each of which the outside world may answer by raising, and
      records every call it issued.
    - [Pixels]: what the service computes for an expression at one pixel,
      used to state what the assembled expression means. *)

From Stdlib Require Import String List ZArith QArith Bool Lia Lqa.
Import ListNotations.
Open Scope string_scope.
Open Scope list_scope.

(** ** Python values *)

(** What a call into a library raises: an instance of Python's [Exception],
    the class the handler's [except] clause names.  It is known by what
    [str(e)] yields. *)
Record Exception : Type := { str : string }.

(** The credentials object of [google.auth.default]; opaque to the handler. *)
Inductive Credentials : Type := credentials_handle (n : nat).

(** ** Objects of the Earth Engine client *)
Module ee.

(** [ee.Geometry.Rectangle(coords)] *)
Inductive Geometry : Type :=
| Rectangle (coords : list Q).

(** [ee.Filter.lt(name, value)] *)
Inductive Filter : Type :=
| lt (name : string) (value : Z).

Inductive Image : Type :=
| element
    (* the argument [ImageCollection.map] passes to its callback *)
| select (image : Image) (band : string)
| neq (image : Image) (value : Z)
| And (image image2 : Image)
| updateMask (image mask : Image)
| median (collection : ImageCollection)
| normalizedDifference (image : Image) (bandNames : list string)
| rename (image : Image) (name : string)
with ImageCollection : Type :=
| load (id : string)                       (* ee.ImageCollection(id) *)
| filterBounds (collection : ImageCollection) (geometry : Geometry)
| filterDate (collection : ImageCollection) (start end_ : string)
| filter (collection : ImageCollection) (f : Filter)
| map (collection : ImageCollection) (body : Image).

(** The [vis_params] dictionary of [getMapId]. *)
Record VisParams : Type :=
  { min : Q; max : Q; palette : list string }.

End ee.

(** ** Calls that leave the handler's own code *)

Inductive Call : Type :=
| google_auth_default (scopes : list string)
| ee_Initialize (credentials : Credentials) (project : string)
| ee_Geometry (built : ee.Geometry)
| ee_Filter (built : ee.Filter)
| ee_ImageCollection (built : ee.ImageCollection)
| ee_Image (built : ee.Image)
| getMapId (image : ee.Image) (vis_params : ee.VisParams).

(** A call together with how it ended: [None] when it returned, [Some e]
    when it raised [e]. *)
Definition Event : Type := (Call * option Exception)%type.

(** The calls of a trace, in the order they were issued. *)
Definition calls_of (tr : list Event) : list Call := List.map fst tr.

(** The world outside the handler: credential resolver, client library and
    remote service.  It decides whether a call raises and what the two calls
    with a result that is not an expression hand back. *)
Class Service : Type :=
  { World : Type;
    raises : Call -> World -> option Exception;
    after : Call -> World -> World;
    default_credentials : World -> Credentials;
    url_format : ee.Image -> ee.VisParams -> World -> string }.

(** How a Python call ends. *)
Inductive Result (A : Type) : Type :=
| Returned (a : A)
| Raised (e : Exception).
Arguments Returned {A} a.
Arguments Raised {A} e.

(** ** The monad of handler code *)
Section Handler.

Context {service : Service}.

(** The process: the module global and the world around it. *)
Record State : Type :=
  { _ee_initialized : bool; world : World }.

(** One execution: how it ended, the calls it issued in order, and the
    process it left behind. *)
Record Run (A : Type) : Type :=
  { result : Result A; trace : list Event; final : State }.
Arguments result {A} r.
Arguments trace {A} r.
Arguments final {A} r.

Definition M (A : Type) : Type := State -> Run A.

Definition ret {A} (a : A) : M A :=
  fun s => {| result := Returned a; trace := []; final := s |}.

Definition bind {A B} (m : M A) (k : A -> M B) : M B :=
  fun s =>
    let r := m s in
    match result r with
    | Returned a =>
        let r' := k a (final r) in
        {| result := result r';
           trace := trace r ++ trace r';
           final := final r' |}
    | Raised e =>
        {| result := Raised e; trace := trace r; final := final r |}
    end.

(** [try: m except Exception as e: h e] *)
Definition try_except {A} (m : M A) (h : Exception -> M A) : M A :=
  fun s =>
    let r := m s in
    match result r with
    | Returned _ => r
    | Raised e =>
        let r' := h e (final r) in
        {| result := result r';
           trace := trace r ++ trace r';
           final := final r' |}
    end.

(** Issue a call: the world moves on, and the call returns or raises. *)
Definition call (c : Call) : M unit :=
  fun s =>
    let s' := {| _ee_initialized := _ee_initialized s;
                 world := after c (world s) |} in
    match raises c (world s) with
    | Some e => {| result := Raised e; trace := [(c, Some e)]; final := s' |}
    | None => {| result := Returned tt; trace := [(c, None)]; final := s' |}
    end.

Definition read_global : M bool :=
  fun s => {| result := Returned (_ee_initialized s); trace := []; final := s |}.

Definition write_global (b : bool) : M unit :=
  fun s =>
    {| result := Returned tt; trace := [];
       final := {| _ee_initialized := b; world := world s |} |}.

Definition ask {A} (f : World -> A) : M A :=
  fun s => {| result := Returned (f (world s)); trace := []; final := s |}.

End Handler.

Arguments result {service A} r.
Arguments trace {service A} r.
Arguments final {service A} r.

Declare Scope py_scope.
Delimit Scope py_scope with py.
Notation "x <- m ;; k" := (bind m (fun x => k))
  (at level 61, m at next level, right associativity) : py_scope.
Notation "m ;; k" := (bind m (fun _ => k))
  (at level 61, right associativity) : py_scope.
Open Scope py_scope.

(** ** The HTTP side *)

(** [request.method] and [request.args]; a query string may repeat a key,
    and [args.get] answers with the first value. *)
Record Request : Type :=
  { method : string; args : list (string * string) }.

Fixpoint args_get (key : string) (args : list (string * string)) : option string :=
  match args with
  | [] => None
  | (k, v) :: rest => if k =? key then Some v else args_get key rest
  end.

(** The first component of the returned tuple: the literal [''] or
    [jsonify(d)] for a dictionary of strings. *)
Inductive Body : Type :=
| text (s : string)
| jsonify (d : list (string * string)).

(** The tuple [(body, status, headers)] the handler returns. *)
Record Response : Type :=
  { body : Body; status : Z; headers : list (string * string) }.

(** ** main.py *)
Section Main.

Context {service : Service}.

Definition NDVI_VIS : ee.VisParams :=
  {| ee.min := -0.2;
     ee.max := 0.8;
     ee.palette :=
       [ "#d73027"; "#fc8d59"; "#fee08b"; "#d9ef8b";
         "#66bd63"; "#1a9850"; "#006837" ] |}.

Definition PROJECT : string := "salish-sea-property-mapper".

(** Every method of the client builds the node of its result; building it
    is a call, which may raise. *)
Definition geometry_call (g : ee.Geometry) : M ee.Geometry :=
  call (ee_Geometry g) ;; ret g.
Definition filter_call (f : ee.Filter) : M ee.Filter :=
  call (ee_Filter f) ;; ret f.
Definition collection_call (c : ee.ImageCollection) : M ee.ImageCollection :=
  call (ee_ImageCollection c) ;; ret c.
Definition image_call (i : ee.Image) : M ee.Image :=
  call (ee_Image i) ;; ret i.

(** [collection.map(algorithm)]: the client runs the callback once, on the
    placeholder of the collection's element, and keeps the expression it
    returns as the body of the mapped function. *)
Definition collection_map (c : ee.ImageCollection)
    (algorithm : ee.Image -> M ee.Image) : M ee.ImageCollection :=
  body <- algorithm ee.element ;;
  collection_call (ee.map c body).

Definition _ensure_ee : M unit :=
  initialized <- read_global ;;
  if initialized then ret tt
  else
    call (google_auth_default ["https://www.googleapis.com/auth/earthengine"]) ;;
    credentials <- ask default_credentials ;;
    call (ee_Initialize credentials PROJECT) ;;
    write_global true.

Definition mask_s2_clouds (image : ee.Image) : M ee.Image :=
  scl <- image_call (ee.select image "SCL") ;;
  ne3 <- image_call (ee.neq scl 3) ;;
  ne8 <- image_call (ee.neq scl 8) ;;
  m38 <- image_call (ee.And ne3 ne8) ;;
  ne9 <- image_call (ee.neq scl 9) ;;
  m389 <- image_call (ee.And m38 ne9) ;;
  ne10 <- image_call (ee.neq scl 10) ;;
  mask <- image_call (ee.And m389 ne10) ;;
  image_call (ee.updateMask image mask).

Definition preflight_headers : list (string * string) :=
  [ ("Access-Control-Allow-Origin", "*");
    ("Access-Control-Allow-Methods", "GET");
    ("Access-Control-Allow-Headers", "Content-Type");
    ("Access-Control-Max-Age", "3600") ].

Definition cors_headers : list (string * string) :=
  [ ("Access-Control-Allow-Origin", "*") ].

Definition missing_parameters : Response :=
  {| body := jsonify [("error", "Missing start/end parameters")];
     status := 400;
     headers := cors_headers |}.

(** Lines 80 to 88: the bounding box and the composite. *)
Definition s2 (start end_ : string) : M ee.Image :=
  region <- geometry_call
    (ee.Rectangle [ -123.22; 48.40; -122.75; 48.77 ]) ;;
  c <- collection_call (ee.load "COPERNICUS/S2_SR_HARMONIZED") ;;
  c <- collection_call (ee.filterBounds c region) ;;
  c <- collection_call (ee.filterDate c start end_) ;;
  f <- filter_call (ee.lt "CLOUDY_PIXEL_PERCENTAGE" 30) ;;
  c <- collection_call (ee.filter c f) ;;
  c <- collection_map c mask_s2_clouds ;;
  image_call (ee.median c).

(** Line 91. *)
Definition ndvi (s2 : ee.Image) : M ee.Image :=
  nd <- image_call (ee.normalizedDifference s2 ["B8"; "B4"]) ;;
  image_call (ee.rename nd "NDVI").

(** The body of the [try] block. *)
Definition processing (start end_ : string) : M Response :=
  _ensure_ee ;;
  s2 <- s2 start end_ ;;
  ndvi <- ndvi s2 ;;
  call (getMapId ndvi NDVI_VIS) ;;
  tile_url <- ask (url_format ndvi NDVI_VIS) ;;
  ret {| body := jsonify [("tileUrl", tile_url)];
         status := 200;
         headers := cors_headers |}.

Definition internal_error (e : Exception) : M Response :=
  ret {| body := jsonify [("error", str e)];
         status := 500;
         headers := cors_headers |}.

(** [not start or not end] on what [args.get] returned: [None] and the
    empty string are the two falsy values. *)
Definition get_tiles (request : Request) : M Response :=
  if method request =? "OPTIONS" then
    ret {| body := text EmptyString;
           status := 204;
           headers := preflight_headers |}
  else
    match args_get "start" (args request), args_get "end" (args request) with
    | Some start, Some end_ =>
        if (start =? EmptyString) || (end_ =? EmptyString)
        then ret missing_parameters
        else try_except (processing start end_) internal_error
    | _, _ => ret missing_parameters
    end.

End Main.

(** ** What the service computes

    The expression the handler assembles is evaluated by the remote imagery
    service, which is no part of the repository.  To say what an expression
    means, the operations the handler uses are given the per-pixel reading
    the specification describes.  Everything below is seen at one pixel;
    rational numbers stand for the service's numbers. *)

(** The samples of an image at the pixel, band by band; [None] is no data. *)
Definition Bands : Type := list (string * option Q).

(** One image of a collection: where and when it was taken, its metadata,
    and its samples at the pixel. *)
Record Scene : Type :=
  { intersects : ee.Geometry -> bool;
    acquired : Z;
    properties : list (string * Q);
    bands : Bands }.

(** Modelled from the spec: the remote imagery service is an external
    collaborator (section 6).  What the specification leaves to it is taken
    as given: the collections it holds, how it reads a date string, its
    median of a list of numbers, and what a normalized difference is where
    its inputs have no data or sum to zero (4.4). *)
Class Imagery : Type :=
  { catalog : string -> option (list Scene);
    date : string -> option Z;
    median_of : list Q -> Q;
    undefined_difference : option Q -> option Q -> option Q }.

Section Pixels.

Context {imagery : Imagery}.

Definition and_then {A B} (o : option A) (f : A -> option B) : option B :=
  match o with Some a => f a | None => None end.

Fixpoint lookup {A} (key : string) (d : list (string * A)) : option A :=
  match d with
  | [] => None
  | (k, v) :: rest => if k =? key then Some v else lookup key rest
  end.

Fixpoint traverse {A B} (f : A -> option B) (l : list A) : option (list B) :=
  match l with
  | [] => Some []
  | a :: rest =>
      and_then (f a) (fun b => option_map (cons b) (traverse f rest))
  end.

Definition no_data (b : Bands) : Bands :=
  List.map (fun band => (fst band, None)) b.

Definition with_bands (scene : Scene) (b : Bands) : Scene :=
  {| intersects := intersects scene;
     acquired := acquired scene;
     properties := properties scene;
     bands := b |}.

(** Modelled from the spec: the scene-classification band of an image bundle
    (4.2).  [image.select(band)] is the one band of that name, and an error
    of the service without it. *)
Definition select_band (band : string) (b : Bands) : option Bands :=
  option_map (fun sample => [(band, sample)]) (lookup band b).

(** Modelled from the spec: whether a pixel's code is a given one (4.2).
    [image.neq(value)] is 1 where the sample differs from [value], else 0. *)
Definition neq_sample (value : Z) (sample : option Q) : option Q :=
  option_map (fun x => if Qeq_bool x (inject_Z value) then 0 else 1) sample.

(** Modelled from the spec: a pixel is kept when its code is none of those
    to exclude (4.2).  [image.And(image2)] is 1 where both samples are
    non-zero, else 0. *)
Definition and_sample (a b : option Q) : option Q :=
  match a, b with
  | Some x, Some y => Some (if Qeq_bool x 0 || Qeq_bool y 0 then 0 else 1)
  | _, _ => None
  end.

(** Band by band on two images with as many bands; other shapes are not
    used by the handler and count as an error here. *)
Fixpoint band_by_band (f : option Q -> option Q -> option Q) (a b : Bands)
  : option Bands :=
  match a, b with
  | [], [] => Some []
  | (name, x) :: a', (_, y) :: b' =>
      option_map (cons (name, f x y)) (band_by_band f a' b')
  | _, _ => None
  end.

(** Modelled from the spec: the same image with an additional mask, such that
    the pixels the mask excludes become no data in all bands.  The mask
    excludes where it is zero or has no data itself. *)
Definition apply_mask (keep : option Q) (b : Bands) : Bands :=
  match keep with
  | Some x => if Qeq_bool x 0 then no_data b else b
  | None => no_data b
  end.

Definition update_mask (b mask : Bands) : option Bands :=
  match mask with
  | [(_, keep)] => Some (apply_mask keep b)
  | _ => None
  end.

(** Modelled from the spec: per pixel and per band, the median across all
    contributing images, that is those with data; no data where none has. *)
Fixpoint present (samples : list (option Q)) : list Q :=
  match samples with
  | [] => []
  | Some x :: rest => x :: present rest
  | None :: rest => present rest
  end.

Definition median_sample (samples : list (option Q)) : option Q :=
  match present samples with
  | [] => None
  | x :: xs => Some (median_of (x :: xs))
  end.

Definition band_across (name : string) (images : list Bands) : list (option Q) :=
  List.map (fun b => match lookup name b with Some s => s | None => None end)
    images.

Definition median_bands (images : list Bands) : Bands :=
  match images with
  | [] => []
  | first :: _ =>
      List.map
        (fun band => (fst band, median_sample (band_across (fst band) images)))
        first
  end.

(** Modelled from the spec: normalized difference = (nir - red) / (nir + red),
    per pixel; division by zero and no data are the service's own. *)
Definition normalized_difference (nir red : option Q) : option Q :=
  match nir, red with
  | Some a, Some b =>
      if Qeq_bool (a + b) 0 then undefined_difference nir red
      else Some ((a - b) / (a + b))
  | _, _ => undefined_difference nir red
  end.

(** Modelled from the spec: the index is a single-band image (4.4).
    [image.normalizedDifference([a, b])] has one band, of the first named
    band against the second. *)
Definition normalized_difference_bands (names : list string) (b : Bands)
  : option Bands :=
  match names with
  | [first; second] =>
      and_then (lookup first b) (fun x =>
      and_then (lookup second b) (fun y =>
      Some [("nd", normalized_difference x y)]))
  | _ => None
  end.

(** Modelled from the spec: a single-band image renamed to a fixed label
    (4.4).  [image.rename(name)] is the one band of the image under the new
    name. *)
Definition rename_band (name : string) (b : Bands) : option Bands :=
  match b with
  | [(_, sample)] => Some [(name, sample)]
  | _ => None
  end.

(** Modelled from the spec: images intersecting the region; images whose
    acquisition date falls in [start, end); images whose metadata value is
    below the bound. *)
Definition in_bounds (g : ee.Geometry) (scene : Scene) : bool :=
  intersects scene g.

Definition in_dates (t0 t1 : Z) (scene : Scene) : bool :=
  (t0 <=? acquired scene)%Z && (acquired scene <? t1)%Z.

Definition Qlt_bool (x y : Q) : bool := negb (Qle_bool y x).

Definition passes (f : ee.Filter) (scene : Scene) : bool :=
  match f with
  | ee.lt name value =>
      match lookup name (properties scene) with
      | Some x => Qlt_bool x (inject_Z value)
      | None => false
      end
  end.

(** Modelled from the spec: the service evaluates the expression it is sent
    (section 1).  The samples of an image expression, and the images of a
    collection expression; [None] when the service answers with an error.
    [element] is the image the enclosing [map] is at. *)
Fixpoint image_at (element : option Bands) (image : ee.Image) : option Bands :=
  match image with
  | ee.element => element
  | ee.select i band => and_then (image_at element i) (select_band band)
  | ee.neq i value =>
      option_map (List.map (fun band => (fst band, neq_sample value (snd band))))
        (image_at element i)
  | ee.And a b =>
      and_then (image_at element a) (fun x =>
      and_then (image_at element b) (fun y =>
      band_by_band and_sample x y))
  | ee.updateMask i mask =>
      and_then (image_at element i) (fun b =>
      and_then (image_at element mask) (fun m =>
      update_mask b m))
  | ee.median c =>
      option_map (fun scenes => median_bands (List.map bands scenes))
        (collection_at element c)
  | ee.normalizedDifference i names =>
      and_then (image_at element i) (normalized_difference_bands names)
  | ee.rename i name => and_then (image_at element i) (rename_band name)
  end
with collection_at (element : option Bands) (c : ee.ImageCollection)
  : option (list Scene) :=
  match c with
  | ee.load id => catalog id
  | ee.filterBounds c g =>
      option_map (List.filter (in_bounds g)) (collection_at element c)
  | ee.filterDate c start end_ =>
      and_then (collection_at element c) (fun scenes =>
      and_then (date start) (fun t0 =>
      and_then (date end_) (fun t1 =>
      Some (List.filter (in_dates t0 t1) scenes))))
  | ee.filter c f =>
      option_map (List.filter (passes f)) (collection_at element c)
  | ee.map c body =>
      and_then (collection_at element c)
        (traverse (fun scene =>
           option_map (with_bands scene) (image_at (Some (bands scene)) body)))
  end.

End Pixels.

(** ** A service to run the handler against

    The world counts the calls issued so far, and [script n] says whether
    call number [n] raises. *)
Definition tile_url_template : string :=
  "https://earthengine.googleapis.com/v1/projects/salish-sea-property-mapper/maps/m/tiles/{z}/{x}/{y}".

Definition scripted (script : nat -> option Exception) : Service :=
  {| World := nat;
     raises := fun _ n => script n;
     after := fun _ n => S n;
     default_credentials := fun n => credentials_handle n;
     url_format := fun _ _ _ => tile_url_template |}.

(** Nothing ever raises. *)
Definition obliging : Service := scripted (fun _ => None).

(** Call number [n] raises [e], every other call returns. *)
Definition failing_at (n : nat) (e : Exception) : Service :=
  scripted (fun k => if Nat.eqb k n then Some e else None).

(** A freshly started process. *)
Definition cold {service : Service} (w : World) : State :=
  {| _ee_initialized := false; world := w |}.

(** ** Imagery to evaluate expressions against: a handful of scenes over the
    region in the summer of 2024, seen at one pixel. *)
Definition scene (day : Z) (cloudy b4 b8 scl : Q) : Scene :=
  {| intersects := fun _ => true;
     acquired := day;
     properties := [("CLOUDY_PIXEL_PERCENTAGE", cloudy)];
     bands := [("B4", Some b4); ("B8", Some b8); ("SCL", Some scl)] |}.

Definition summer_2024 : list Scene :=
  [ scene 10 5 400 3000 4;      (* vegetation *)
    scene 25 12 900 1000 9;     (* high-probability cloud over the pixel *)
    scene 40 45 500 2800 4;     (* too cloudy a scene *)
    scene 55 8 600 3400 4;
    scene 70 30 450 3100 4;     (* exactly 30 percent: not below *)
    scene 91 3 480 3300 4;      (* taken on the end date *)
    scene 60 20 500 3200 5 ].

Definition day_of (d : string) : option Z :=
  if d =? "2024-06-01" then Some 0%Z
  else if d =? "2024-08-31" then Some 91%Z
  else None.

Fixpoint insert_sorted (x : Q) (l : list Q) : list Q :=
  match l with
  | [] => [x]
  | y :: rest => if Qle_bool x y then x :: l else y :: insert_sorted x rest
  end.

Definition middle (l : list Q) : Q :=
  nth (Nat.div2 (length l)) (fold_right insert_sorted [] l) 0.

Definition summer : Imagery :=
  {| catalog := fun id =>
       if id =? "COPERNICUS/S2_SR_HARMONIZED" then Some summer_2024 else None;
     date := day_of;
     median_of := middle;
     undefined_difference := fun _ _ => None |}.

(** ** Vocabulary of the properties *)
Section Vocabulary.

Context {service : Service}.

(** No call of the trace raised. *)
Definition quiet (tr : list Event) : Prop :=
  Forall (fun ev => snd ev = None) tr.

(** A run is honest when its trace tells how it ended: a run that returned
    saw no call raise, and a run that raised [e] ends with the one call
    that raised, which raised [e]. *)
Definition honest {A} (r : Run A) : Prop :=
  match result r with
  | Returned _ => quiet (trace r)
  | Raised e => exists tr c, trace r = tr ++ [(c, Some e)] /\ quiet tr
  end.

(** A computation all of whose runs are honest. *)
Definition disciplined {A} (m : M A) : Prop := forall s, honest (m s).

(** Whatever [m] returns satisfies [P]. *)
Definition ensures {A} (m : M A) (P : A -> Prop) : Prop :=
  forall s a, result (m s) = Returned a -> P a.

(** The scope the initializer asks credentials for. *)
Definition credential_scopes : list string :=
  ["https://www.googleapis.com/auth/earthengine"].

(** [n] calls of the initializer one after the other in one process.  A
    caller that catches what a call raised goes on with the process that call
    left behind. *)
Fixpoint sequential_calls (n : nat) (s : State) : list (Run unit) :=
  match n with
  | O => []
  | S n => let r := _ensure_ee s in r :: sequential_calls n (final r)
  end.

(** The calls of the initializer, by kind: resolving credentials, entering
    [ee.Initialize], and [ee.Initialize] having returned. *)
Definition resolves_credentials (ev : Event) : bool :=
  match fst ev with google_auth_default _ => true | _ => false end.

Definition initializes_session (ev : Event) : bool :=
  match fst ev with ee_Initialize _ _ => true | _ => false end.

Definition session_established (ev : Event) : bool :=
  match ev with (ee_Initialize _ _, None) => true | _ => false end.

(** How many calls of one kind a sequence of runs issued. *)
Definition issued (kind : Event -> bool) (runs : list (Run unit)) : nat :=
  length (List.filter kind (flat_map trace runs)).

(** The runs of a sequence that raised. *)
Definition raised {A} (r : Run A) : bool :=
  match result r with Raised _ => true | Returned _ => false end.

Definition failures (runs : list (Run unit)) : nat :=
  length (List.filter raised runs).

(** A call that found the session initialized. *)
Definition no_op (s : State) : Run unit :=
  {| result := Returned tt; trace := []; final := s |}.

(** The three ways a call on an uninitialized process can go. *)
Inductive ColdRun (s : State) : Run unit -> Prop :=
| credentials_fail e :
    let auth := google_auth_default credential_scopes in
    raises auth (world s) = Some e ->
    ColdRun s
      {| result := Raised e;
         trace := [(auth, Some e)];
         final := {| _ee_initialized := false; world := after auth (world s) |} |}
| initialize_fails e :
    let auth := google_auth_default credential_scopes in
    let w := after auth (world s) in
    let init := ee_Initialize (default_credentials w) PROJECT in
    raises auth (world s) = None ->
    raises init w = Some e ->
    ColdRun s
      {| result := Raised e;
         trace := [(auth, None); (init, Some e)];
         final := {| _ee_initialized := false; world := after init w |} |}
| session_ready :
    let auth := google_auth_default credential_scopes in
    let w := after auth (world s) in
    let init := ee_Initialize (default_credentials w) PROJECT in
    raises auth (world s) = None ->
    raises init w = None ->
    ColdRun s
      {| result := Returned tt;
         trace := [(auth, None); (init, None)];
         final := {| _ee_initialized := true; world := after init w |} |}.

(** [m] returns [a] after issuing exactly [calls], in that order; a run of
    [m] that raises has issued the first few of them. *)
Definition yields {A} (m : M A) (a : A) (calls : list Call) : Prop :=
  forall s,
    match result (m s) with
    | Returned a' => a' = a /\ calls_of (trace (m s)) = calls
    | Raised _ => exists rest, calls = calls_of (trace (m s)) ++ rest
    end.

(** A computation that leaves the module global alone. *)
Definition keeps_global {A} (m : M A) : Prop :=
  forall s, _ee_initialized (final (m s)) = _ee_initialized s.

(** The expression [mask_s2_clouds] builds for an image. *)
Definition cloud_masked (image : ee.Image) : ee.Image :=
  let scl := ee.select image "SCL" in
  ee.updateMask image
    (ee.And (ee.And (ee.And (ee.neq scl 3) (ee.neq scl 8)) (ee.neq scl 9))
       (ee.neq scl 10)).

Definition mask_calls (image : ee.Image) : list Call :=
  let scl := ee.select image "SCL" in
  let m38 := ee.And (ee.neq scl 3) (ee.neq scl 8) in
  let m389 := ee.And m38 (ee.neq scl 9) in
  let mask := ee.And m389 (ee.neq scl 10) in
  [ ee_Image scl;
    ee_Image (ee.neq scl 3); ee_Image (ee.neq scl 8); ee_Image m38;
    ee_Image (ee.neq scl 9); ee_Image m389;
    ee_Image (ee.neq scl 10); ee_Image mask;
    ee_Image (ee.updateMask image mask) ].

(** The region, the expression of the composite and of the index. *)
Definition bounding_rectangle : ee.Geometry :=
  ee.Rectangle [ -123.22; 48.40; -122.75; 48.77 ].

Definition filtered (start end_ : string) : ee.ImageCollection :=
  ee.filter
    (ee.filterDate
       (ee.filterBounds (ee.load "COPERNICUS/S2_SR_HARMONIZED") bounding_rectangle)
       start end_)
    (ee.lt "CLOUDY_PIXEL_PERCENTAGE" 30).

Definition composite (start end_ : string) : ee.Image :=
  ee.median (ee.map (filtered start end_) (cloud_masked ee.element)).

Definition composite_calls (start end_ : string) : list Call :=
  let c0 := ee.load "COPERNICUS/S2_SR_HARMONIZED" in
  let c1 := ee.filterBounds c0 bounding_rectangle in
  let c2 := ee.filterDate c1 start end_ in
  let f := ee.lt "CLOUDY_PIXEL_PERCENTAGE" 30 in
  let c3 := ee.filter c2 f in
  let c4 := ee.map c3 (cloud_masked ee.element) in
  [ ee_Geometry bounding_rectangle;
    ee_ImageCollection c0; ee_ImageCollection c1; ee_ImageCollection c2;
    ee_Filter f; ee_ImageCollection c3 ]
  ++ mask_calls ee.element
  ++ [ ee_ImageCollection c4; ee_Image (ee.median c4) ].

Definition index (s2 : ee.Image) : ee.Image :=
  ee.rename (ee.normalizedDifference s2 ["B8"; "B4"]) "NDVI".

End Vocabulary.

(** ** The specification's words *)
Section Words.

Context {imagery : Imagery}.

(** The specification's words for the cloud mask (4.2): the codes 3, 8, 9
    and 10 of the scene-classification band denote pixels to exclude, and an
    excluded pixel becomes no data in all bands.  On a pixel whose
    classification has no data the specification is silent; the service's
    mask leaves it without data. *)
Definition excluded_codes : list Z := [3; 8; 9; 10]%Z.

Definition excluded (code : Q) : bool :=
  existsb (fun k => Qeq_bool code (inject_Z k)) excluded_codes.

Definition cloud_mask_spec (b : Bands) : option Bands :=
  match lookup "SCL" b with
  | Some (Some code) => Some (if excluded code then no_data b else b)
  | Some None => Some (no_data b)
  | None => None
  end.


End Words.

(** ** Inputs to run the handler on *)

Definition summer_request : Request :=
  {| method := "GET";
     args := [("start", "2024-06-01"); ("end", "2024-08-31")] |}.

Definition quota : Exception := {| str := "Quota exceeded" |}.

Definition cloudy_pixel : Bands :=
  [("B4", Some 900); ("B8", Some 1000); ("SCL", Some 9)].

Definition leafy_pixel : Bands :=
  [("B4", Some 500); ("B8", Some 3200); ("SCL", Some 4)].

(** ** Vocabulary of the further properties *)
Section Further.

Context {service : Service}.

(** Python's [not v] on what [args.get] returned. *)
Definition falsy (v : option string) : bool :=
  match v with
  | None => true
  | Some s => s =? EmptyString
  end.

(** The [try] block after the call of the initializer: lines 79 to 97. *)
Definition after_session (start end_ : string) : M Response :=
  s2 <- s2 start end_ ;;
  ndvi <- ndvi s2 ;;
  call (getMapId ndvi NDVI_VIS) ;;
  tile_url <- ask (url_format ndvi NDVI_VIS) ;;
  ret {| body := jsonify [("tileUrl", tile_url)];
         status := 200;
         headers := cors_headers |}.


(** How many calls of one kind a trace holds. *)
Definition count_calls (kind : Call -> bool) (tr : list Event) : nat :=
  length (List.filter kind (calls_of tr)).

Definition issues_at_most {A} (kind : Call -> bool) (m : M A) (n : nat) : Prop :=
  forall s, (count_calls kind (trace (m s)) <= n)%nat.




Definition is_Initialize (c : Call) : bool :=
  match c with ee_Initialize _ _ => true | _ => false end.

Definition is_session_call (c : Call) : bool :=
  match c with
  | google_auth_default _ | ee_Initialize _ _ => true
  | _ => false
  end.

(** Requests served one after the other by one process: each finds the
    process the one before left behind. *)
Fixpoint serve (requests : list Request) (s : State) : list (Run Response) :=
  match requests with
  | [] => []
  | request :: rest =>
      let r := get_tiles request s in r :: serve rest (final r)
  end.

(** How often [ee.Initialize] returned in the runs of a sequence. *)
Definition sessions_established (runs : list (Run Response)) : nat :=
  length (List.filter session_established (flat_map trace runs)).

End Further.

Section FurtherWords.

Context {imagery : Imagery}.

(** A pixel of an image that the cloud mask keeps: its scene classification
    has a value, and the value is none of the excluded codes. *)
Definition clear_sky (b : Bands) : bool :=
  match lookup "SCL" b with
  | Some (Some code) => negb (excluded code)
  | _ => false
  end.

End FurtherWords.


(** The response to the summer request when every call returns. *)
Definition summer_response : Response :=
  {| body := jsonify [("tileUrl", tile_url_template)];
     status := 200;
     headers := [("Access-Control-Allow-Origin", "*")] |}.

(** The scenes of the summer that pass the three filters. *)
Definition summer_selection : list Scene :=
  [ scene 10 5 400 3000 4;
    scene 25 12 900 1000 9;
    scene 55 8 600 3400 4;
    scene 60 20 500 3200 5 ].

(** A request without its end date, and a pixel without classification. *)
Definition open_ended_request : Request :=
  {| method := "GET"; args := [("start", "2024-06-01")] |}.

Definition unclassified_pixel : Bands :=
  [("B4", Some 700); ("B8", Some 2500)].

(** * Properties *)

(** ** How exceptions travel *)
Section Discipline.

Context {service : Service}.

Lemma calls_of_app (tr tr' : list Event) :
  calls_of (tr ++ tr') = calls_of tr ++ calls_of tr'.
Proof. apply map_app. Qed.

Lemma call_returned c (s : State) :
  result (call c s) = Returned tt -> trace (call c s) = [(c, None)].
Proof. unfold call. destruct (raises c (world s)); [discriminate | reflexivity]. Qed.

Lemma quiet_app tr tr' : quiet tr -> quiet tr' -> quiet (tr ++ tr').
Proof. unfold quiet. intros. apply Forall_app. split; assumption. Qed.

Lemma quiet_no_raise tr c e : quiet tr -> ~ In (c, Some e) tr.
Proof.
  unfold quiet. rewrite Forall_forall. intros H Hin.
  specialize (H _ Hin). discriminate H.
Qed.

Lemma disciplined_ret {A} (a : A) : disciplined (ret a).
Proof. intros s. constructor. Qed.

Lemma disciplined_call c : disciplined (call c).
Proof.
  intros s. unfold honest, call.
  destruct (raises c (world s)) as [e|]; cbn.
  - exists [], c. split; [reflexivity | constructor].
  - repeat constructor.
Qed.

Lemma disciplined_read_global : disciplined read_global.
Proof. intros s. constructor. Qed.

Lemma disciplined_write_global b : disciplined (write_global b).
Proof. intros s. constructor. Qed.

Lemma disciplined_ask {A} (f : World -> A) : disciplined (ask f).
Proof. intros s. constructor. Qed.

Lemma disciplined_bind {A B} (m : M A) (k : A -> M B) :
  disciplined m -> (forall a, disciplined (k a)) -> disciplined (bind m k).
Proof.
  intros Hm Hk s. specialize (Hm s). unfold honest, bind in *.
  destruct (result (m s)) as [a|e]; cbn.
  - specialize (Hk a (final (m s))). unfold honest in Hk.
    destruct (result (k a (final (m s)))) as [b|e].
    + apply quiet_app; assumption.
    + destruct Hk as (tr & c & Htr & Hq).
      exists (trace (m s) ++ tr), c. split.
      * rewrite Htr. apply app_assoc.
      * apply quiet_app; assumption.
  - exact Hm.
Qed.

Lemma disciplined_if {A} (b : bool) (m m' : M A) :
  disciplined m -> disciplined m' -> disciplined (if b then m else m').
Proof. destruct b; trivial. Qed.

(** In an honest run that returned nothing raised; in one that raised,
    the exception that left is the only one in the trace. *)
Lemma honest_returned {A} (r : Run A) a c e :
  honest r -> result r = Returned a -> ~ In (c, Some e) (trace r).
Proof.
  unfold honest. intros H Hr. rewrite Hr in H. apply quiet_no_raise, H.
Qed.

Lemma honest_raised {A} (r : Run A) e' c e :
  honest r -> result r = Raised e' -> In (c, Some e) (trace r) -> e = e'.
Proof.
  unfold honest. intros H Hr Hin. rewrite Hr in H.
  destruct H as (tr & c' & Htr & Hq). rewrite Htr in Hin.
  apply in_app_or in Hin. destruct Hin as [Hin | [Heq | []]].
  - exfalso. eapply quiet_no_raise; eassumption.
  - congruence.
Qed.

End Discipline.

Create HintDb discipline.
#[export] Hint Resolve disciplined_ret disciplined_call disciplined_read_global
  disciplined_write_global disciplined_ask disciplined_bind disciplined_if
  : discipline.

Ltac discipline :=
  repeat first
    [ apply disciplined_bind; [ | intros ? ]
    | apply disciplined_if
    | solve [ auto with discipline ] ].

Section MainDiscipline.

Context {service : Service}.

Lemma disciplined_image_call i : disciplined (image_call i).
Proof. unfold image_call. discipline. Qed.

Lemma disciplined_collection_call c : disciplined (collection_call c).
Proof. unfold collection_call. discipline. Qed.

Lemma disciplined_ensure_ee : disciplined _ensure_ee.
Proof. unfold _ensure_ee. discipline. Qed.

Lemma disciplined_mask_s2_clouds image : disciplined (mask_s2_clouds image).
Proof. unfold mask_s2_clouds, image_call. discipline. Qed.

Lemma disciplined_s2 start end_ : disciplined (s2 start end_).
Proof.
  unfold s2, collection_map, filter_call, geometry_call.
  pose proof disciplined_mask_s2_clouds.
  pose proof disciplined_image_call.
  pose proof disciplined_collection_call.
  discipline.
Qed.

Lemma disciplined_processing start end_ : disciplined (processing start end_).
Proof.
  unfold processing, ndvi.
  pose proof disciplined_ensure_ee.
  pose proof disciplined_s2.
  pose proof disciplined_image_call.
  discipline.
Qed.

End MainDiscipline.

(** ** What a computation returns, when it returns *)
Section Postconditions.

Context {service : Service}.

Lemma ensures_ret {A} (a : A) (P : A -> Prop) : P a -> ensures (ret a) P.
Proof. intros H s a' [= <-]. exact H. Qed.

Lemma ensures_bind {A B} (m : M A) (k : A -> M B) (Q : A -> Prop) (P : B -> Prop) :
  ensures m Q -> (forall a, Q a -> ensures (k a) P) -> ensures (bind m k) P.
Proof.
  intros Hm Hk s b. unfold bind.
  destruct (result (m s)) as [a|e] eqn:Hr; cbn; [ | discriminate].
  intros Hb. exact (Hk a (Hm s a Hr) (final (m s)) b Hb).
Qed.

Lemma ensures_true {A} (m : M A) : ensures m (fun _ => True).
Proof. intros s a _. exact I. Qed.

End Postconditions.

(** ** The handler's three ways out *)
Section Responses.

Context {service : Service}.

Lemma not_options (request : Request) :
  method request <> "OPTIONS" -> (method request =? "OPTIONS") = false.
Proof. apply String.eqb_neq. Qed.

(** C3. A request whose method is OPTIONS is answered with status 204, an
    empty body and exactly the four preflight headers, whatever its query
    parameters are; no call is issued and the process is left as it was. *)
Theorem preflight (request : Request) (s : State) :
  method request = "OPTIONS" ->
  get_tiles request s =
    {| result :=
         Returned
           {| body := text EmptyString;
              status := 204;
              headers :=
                [ ("Access-Control-Allow-Origin", "*");
                  ("Access-Control-Allow-Methods", "GET");
                  ("Access-Control-Allow-Headers", "Content-Type");
                  ("Access-Control-Max-Age", "3600") ] |};
       trace := [];
       final := s |}.
Proof.
  intros Hm. unfold get_tiles. rewrite Hm. reflexivity.
Qed.

(** C1. A request that is not OPTIONS and lacks [start] or [end] is
    answered with status 400 and the body
    [{"error": "Missing start/end parameters"}]; the run issued no call,
    so neither the session initializer nor the imagery service was
    reached, and the process is left as it was. *)
Theorem missing_parameter_rejected (request : Request) (s : State) :
  method request <> "OPTIONS" ->
  args_get "start" (args request) = None \/
  args_get "end" (args request) = None ->
  get_tiles request s =
    {| result :=
         Returned
           {| body := jsonify [("error", "Missing start/end parameters")];
              status := 400;
              headers := [("Access-Control-Allow-Origin", "*")] |};
       trace := [];
       final := s |}.
Proof.
  intros Hm Hmiss. unfold get_tiles. rewrite (not_options _ Hm).
  destruct Hmiss as [H | H]; rewrite H.
  - reflexivity.
  - destruct (args_get "start" (args request)); reflexivity.
Qed.

(** C9. A request that is not OPTIONS and gives [start] or [end] as the
    empty string gets the very response of a request that lacks the
    parameter: status 400, [{"error": "Missing start/end parameters"}],
    no call issued. *)
Theorem empty_parameter_rejected (request : Request) (s : State) :
  method request <> "OPTIONS" ->
  args_get "start" (args request) = Some EmptyString \/
  args_get "end" (args request) = Some EmptyString ->
  get_tiles request s =
    {| result :=
         Returned
           {| body := jsonify [("error", "Missing start/end parameters")];
              status := 400;
              headers := [("Access-Control-Allow-Origin", "*")] |};
       trace := [];
       final := s |}.
Proof.
  intros Hm Hempty. unfold get_tiles. rewrite (not_options _ Hm).
  destruct Hempty as [H | H]; rewrite H.
  - destruct (args_get "end" (args request)); reflexivity.
  - destruct (args_get "start" (args request)) as [start|]; [ | reflexivity].
    cbn. rewrite orb_true_r. reflexivity.
Qed.

(** C2. For a request that is not OPTIONS and has both [start] and [end]:
    the handler always returns a response, so no exception leaves it; and
    if any call of the run raised [e] (resolving credentials, initializing
    the session, building the region, a filter, the mask, the median, the
    normalized difference, or fetching the map id) the response is status
    500 with body [{"error": str(e)}]. *)
Theorem exception_becomes_500 (request : Request) (s : State) start end_ :
  method request <> "OPTIONS" ->
  args_get "start" (args request) = Some start ->
  args_get "end" (args request) = Some end_ ->
  (exists response, result (get_tiles request s) = Returned response) /\
  (forall c e,
      In (c, Some e) (trace (get_tiles request s)) ->
      result (get_tiles request s) =
        Returned
          {| body := jsonify [("error", str e)];
             status := 500;
             headers := [("Access-Control-Allow-Origin", "*")] |}).
Proof.
  intros Hm Hs He. unfold get_tiles.
  rewrite (not_options _ Hm), Hs, He.
  destruct ((start =? EmptyString) || (end_ =? EmptyString)).
  - split; [eexists; reflexivity | intros c e []].
  - pose proof (disciplined_processing start end_ s) as Hh.
    unfold try_except.
    destruct (result (processing start end_ s)) as [r|e'] eqn:Hr.
    + split; [eexists; exact Hr | ].
      intros c e Hin. exfalso. eapply honest_returned; eassumption.
    + cbn. split; [eexists; reflexivity | ].
      intros c e Hin. rewrite app_nil_r in Hin.
      rewrite (honest_raised _ _ _ _ Hh Hr Hin). reflexivity.
Qed.

(** C8. Every response to a request that is not OPTIONS carries the single
    header [Access-Control-Allow-Origin: *]; its status is 200 with a body
    [{"tileUrl": <string>}], or 400 or 500 with a body
    [{"error": <string>}]. *)
Theorem response_shape (request : Request) (s : State) :
  method request <> "OPTIONS" ->
  exists response,
    result (get_tiles request s) = Returned response /\
    headers response = [("Access-Control-Allow-Origin", "*")] /\
    ((status response = 200 /\
      exists tile_url, body response = jsonify [("tileUrl", tile_url)]) \/
     ((status response = 400 \/ status response = 500) /\
      exists message, body response = jsonify [("error", message)]))%Z.
Proof.
  intros Hm. unfold get_tiles. rewrite (not_options _ Hm).
  assert (Hbad : exists response,
             result (ret missing_parameters s) = Returned response /\
             headers response = [("Access-Control-Allow-Origin", "*")] /\
             ((status response = 200 /\
               exists tile_url, body response = jsonify [("tileUrl", tile_url)]) \/
              ((status response = 400 \/ status response = 500) /\
               exists message, body response = jsonify [("error", message)]))%Z).
  { eexists. split; [reflexivity | ]. split; [reflexivity | ].
    right. split; [left; reflexivity | eexists; reflexivity]. }
  destruct (args_get "start" (args request)) as [start|]; [ | exact Hbad].
  destruct (args_get "end" (args request)) as [end_|]; [ | exact Hbad].
  destruct ((start =? EmptyString) || (end_ =? EmptyString)); [exact Hbad | ].
  clear Hbad. unfold try_except.
  destruct (result (processing start end_ s)) as [r|e] eqn:Hr.
  - exists r. split; [exact Hr | ].
    revert s r Hr.
    change (ensures (processing start end_)
              (fun r =>
                 headers r = [("Access-Control-Allow-Origin", "*")] /\
                 ((status r = 200 /\
                   exists tile_url, body r = jsonify [("tileUrl", tile_url)]) \/
                  ((status r = 400 \/ status r = 500) /\
                   exists message, body r = jsonify [("error", message)]))%Z)).
    unfold processing.
    repeat (eapply ensures_bind; [apply ensures_true | intros ? _]).
    apply ensures_ret.
    split; [reflexivity | ]. left. split; [reflexivity | eexists; reflexivity].
  - eexists. split; [reflexivity | ]. split; [reflexivity | ].
    right. split; [right; reflexivity | eexists; reflexivity].
Qed.

End Responses.

(** ** The session initializer *)
Section Session.

Context {service : Service}.

Lemma ensure_ee_warm (s : State) :
  _ee_initialized s = true -> _ensure_ee s = no_op s.
Proof.
  intros H. unfold _ensure_ee, bind, read_global. cbn. rewrite H. reflexivity.
Qed.

Lemma ensure_ee_cold (s : State) :
  _ee_initialized s = false -> ColdRun s (_ensure_ee s).
Proof.
  intros H. unfold _ensure_ee, bind, call, read_global, ask, write_global.
  cbn. rewrite H. cbn.
  destruct (raises (google_auth_default _) (world s)) as [e|] eqn:Hauth;
    cbn; rewrite ?H.
  - apply credentials_fail. exact Hauth.
  - destruct (raises (ee_Initialize _ _) _) as [e|] eqn:Hinit; cbn; rewrite ?H.
    + apply initialize_fails; assumption.
    + apply session_ready; assumption.
Qed.

Lemma ensure_ee_returned (s : State) :
  result (_ensure_ee s) = Returned tt ->
  _ee_initialized (final (_ensure_ee s)) = true.
Proof.
  destruct (_ee_initialized s) eqn:H.
  - rewrite (ensure_ee_warm s H). intros _. exact H.
  - destruct (ensure_ee_cold s H); cbn; intros Hr; try discriminate. reflexivity.
Qed.

Lemma ensure_ee_raised (s : State) e :
  result (_ensure_ee s) = Raised e ->
  _ee_initialized s = false /\ _ee_initialized (final (_ensure_ee s)) = false.
Proof.
  destruct (_ee_initialized s) eqn:H.
  - rewrite (ensure_ee_warm s H). discriminate.
  - destruct (ensure_ee_cold s H); cbn; intros Hr; try discriminate; auto.
Qed.

(** Once the session is initialized every further call is a no-op. *)
Lemma sequential_calls_warm (n : nat) (s : State) :
  _ee_initialized s = true ->
  sequential_calls n s = repeat (no_op s) n.
Proof.
  intros H. induction n as [|n IH]; cbn [sequential_calls repeat]; [reflexivity | ].
  rewrite (ensure_ee_warm s H). cbn [final no_op]. rewrite IH. reflexivity.
Qed.

Lemma issued_cons kind (r : Run unit) runs :
  issued kind (r :: runs) =
  (length (List.filter kind (trace r)) + issued kind runs)%nat.
Proof.
  unfold issued. cbn. rewrite filter_app, length_app. reflexivity.
Qed.

Lemma issued_no_ops kind (s : State) n : issued kind (repeat (no_op s) n) = O.
Proof.
  induction n as [|n IH]; [reflexivity | ].
  cbn [repeat]. rewrite issued_cons, IH. reflexivity.
Qed.

Lemma failures_no_ops (s : State) n : failures (repeat (no_op s) n) = O.
Proof. induction n as [|n IH]; [reflexivity | exact IH]. Qed.

Lemma failures_cons (r : Run unit) runs :
  failures (r :: runs) =
  ((if raised r then 1 else 0) + failures runs)%nat.
Proof. unfold failures. cbn. destruct (raised r); reflexivity. Qed.

Lemma setup_bounded (n : nat) (s : State) :
  let runs := sequential_calls n s in
  (issued resolves_credentials runs <= 1 + failures runs /\
   issued initializes_session runs <= 1 + failures runs /\
   issued session_established runs <= 1)%nat.
Proof.
  revert s. induction n as [|n IH]; intros s; cbn zeta.
  - cbn. lia.
  - destruct (_ee_initialized s) eqn:H.
    + rewrite (sequential_calls_warm _ s H), !issued_no_ops, failures_no_ops. lia.
    + cbn [sequential_calls]. rewrite !issued_cons, failures_cons.
      destruct (ensure_ee_cold s H)
        as [e auth Ha | e auth w init Ha Hi | auth w init Ha Hi];
        cbn [trace final result raised].
      * match goal with |- context [sequential_calls n ?s'] =>
                            specialize (IH s') end.
        cbn in IH |- *. lia.
      * match goal with |- context [sequential_calls n ?s'] =>
                            specialize (IH s') end.
        cbn in IH |- *. lia.
      * rewrite sequential_calls_warm by reflexivity.
        rewrite !issued_no_ops, failures_no_ops. cbn. lia.
Qed.

Lemma no_ops_after_success (n : nat) (s : State) i j ri rj :
  (i < j)%nat ->
  nth_error (sequential_calls n s) i = Some ri ->
  result ri = Returned tt ->
  nth_error (sequential_calls n s) j = Some rj ->
  rj = no_op (final ri).
Proof.
  revert s i j. induction n as [|n IH]; intros s i j Hij Hi Hr Hj.
  - destruct i; discriminate.
  - destruct j as [|j]; [lia | ]. cbn [nth_error sequential_calls] in Hj.
    destruct i as [|i]; cbn [nth_error sequential_calls] in Hi.
    + injection Hi as <-.
      rewrite sequential_calls_warm in Hj by (apply ensure_ee_returned, Hr).
      apply nth_error_In, repeat_spec in Hj. exact Hj.
    + apply (IH (final (_ensure_ee s)) i j); [lia | assumption..].
Qed.

(** C7. The session initializer is idempotent.  In any number of calls one
    after the other in one process: the session is established at most once;
    credentials are resolved, and [ee.Initialize] is entered, at most once
    more than the number of calls that raised, hence at most once when no
    call raises; and every call after one that returned is a no-op that
    returns at once, issues no call and leaves the process as it was. *)
Theorem ensure_ee_idempotent (n : nat) (s : State) :
  let runs := sequential_calls n s in
  (issued session_established runs <= 1)%nat /\
  (issued resolves_credentials runs <= 1 + failures runs)%nat /\
  (issued initializes_session runs <= 1 + failures runs)%nat /\
  (forall i j ri rj,
      (i < j)%nat ->
      nth_error runs i = Some ri ->
      result ri = Returned tt ->
      nth_error runs j = Some rj ->
      rj = {| result := Returned tt; trace := []; final := final ri |}).
Proof.
  cbn zeta. pose proof (setup_bounded n s) as (Hc & Hi & He).
  repeat split; try assumption.
  intros i j ri rj. apply no_ops_after_success.
Qed.

(** C10. When the initializer raises, the global flag is as it was, unset;
    so the next call starts over: it resolves credentials first and, if that
    returns, goes on to [ee.Initialize] with those credentials. *)
Theorem failed_initialization_is_retried (s : State) (e : Exception) :
  result (_ensure_ee s) = Raised e ->
  let s' := final (_ensure_ee s) in
  let auth := google_auth_default ["https://www.googleapis.com/auth/earthengine"] in
  let w := after auth (world s') in
  _ee_initialized s' = _ee_initialized s /\
  _ee_initialized s' = false /\
  exists outcome rest,
    trace (_ensure_ee s') = (auth, outcome) :: rest /\
    (outcome = None ->
     exists outcome',
       rest = [(ee_Initialize (default_credentials w) "salish-sea-property-mapper",
                outcome')]).
Proof.
  intros Hr. cbn zeta. destruct (ensure_ee_raised s e Hr) as [H0 H1].
  split; [congruence | ]. split; [exact H1 | ].
  destruct (ensure_ee_cold _ H1)
    as [e' auth Ha | e' auth w init Ha Hi | auth w init Ha Hi];
    cbn [trace].
  - exists (Some e'), []. split; [reflexivity | discriminate].
  - exists None, [(init, Some e')]. split; [reflexivity | ].
    intros _. exists (Some e'). reflexivity.
  - exists None, [(init, None)]. split; [reflexivity | ].
    intros _. exists None. reflexivity.
Qed.

End Session.

(** ** What a computation builds, and by which calls *)
Section Building.

Context {service : Service}.

Lemma yields_bind {A B} (m : M A) (k : A -> M B) a b cs cs' :
  yields m a cs -> yields (k a) b cs' -> yields (bind m k) b (cs ++ cs').
Proof.
  intros Hm Hk s. specialize (Hm s). unfold bind.
  destruct (result (m s)) as [a'|e]; cbn.
  - destruct Hm as [-> <-]. specialize (Hk (final (m s))).
    destruct (result (k a (final (m s)))) as [b'|e]; rewrite calls_of_app.
    + destruct Hk as [-> <-]. auto.
    + destruct Hk as [rest ->]. exists rest. apply app_assoc.
  - destruct Hm as [rest ->]. exists (rest ++ cs'). symmetry. apply app_assoc.
Qed.

Lemma yields_node {A} (c : Call) (a : A) : yields (call c ;; ret a) a [c].
Proof.
  intros s. unfold bind, call, ret.
  destruct (raises c (world s)); cbn; [exists [] | ]; auto.
Qed.

Lemma yields_step {A B} (c : Call) (a : A) (k : A -> M B) b cs :
  yields (k a) b cs -> yields (bind (call c ;; ret a) k) b (c :: cs).
Proof. intros Hk. exact (yields_bind _ _ _ _ _ _ (yields_node c a) Hk). Qed.

Lemma keeps_global_ret {A} (a : A) : keeps_global (ret a).
Proof. intros s. reflexivity. Qed.

Lemma keeps_global_call c : keeps_global (call c).
Proof. intros s. unfold call. destruct (raises c (world s)); reflexivity. Qed.

Lemma keeps_global_bind {A B} (m : M A) (k : A -> M B) :
  keeps_global m -> (forall a, keeps_global (k a)) -> keeps_global (bind m k).
Proof.
  intros Hm Hk s. unfold bind. destruct (result (m s)) as [a|e]; cbn.
  - rewrite Hk. apply Hm.
  - apply Hm.
Qed.

Lemma mask_s2_clouds_yields image :
  yields (mask_s2_clouds image) (cloud_masked image) (mask_calls image).
Proof.
  unfold mask_s2_clouds, image_call, mask_calls. cbn zeta.
  repeat apply yields_step. apply yields_node.
Qed.

Lemma mask_s2_clouds_keeps_global image : keeps_global (mask_s2_clouds image).
Proof.
  unfold mask_s2_clouds, image_call.
  repeat first
    [ apply keeps_global_bind; [ | intros ? ]
    | apply keeps_global_call
    | apply keeps_global_ret ].
Qed.

Lemma s2_yields start end_ :
  yields (s2 start end_) (composite start end_) (composite_calls start end_).
Proof.
  unfold s2, geometry_call, collection_call, filter_call, image_call,
    collection_map, composite_calls.
  cbn zeta. cbn [app].
  repeat apply yields_step.
  set (mapped := ee.map (filtered start end_) (cloud_masked ee.element)).
  refine (yields_bind _ _ mapped _
            (mask_calls ee.element ++ [ee_ImageCollection mapped])
            [ee_Image (ee.median mapped)] _ _).
  - apply yields_bind with (a := cloud_masked ee.element).
    + apply mask_s2_clouds_yields.
    + apply yields_node.
  - apply yields_node.
Qed.

Lemma ndvi_yields s2 :
  yields (ndvi s2) (index s2)
    [ ee_Image (ee.normalizedDifference s2 ["B8"; "B4"]); ee_Image (index s2) ].
Proof.
  unfold ndvi, image_call. apply yields_step, yields_node.
Qed.

End Building.

(** ** What the built expressions mean *)
Section Meaning.

Context {imagery : Imagery}.

Lemma cloud_masked_meaning element image b :
  image_at element image = Some b ->
  image_at element (cloud_masked image) = cloud_mask_spec b.
Proof.
  intros H. unfold cloud_masked, cloud_mask_spec. cbn [image_at].
  rewrite H. cbn [and_then]. unfold select_band.
  destruct (lookup "SCL" b) as [[code|]|];
    cbn [option_map and_then List.map fst snd neq_sample band_by_band
           and_sample update_mask apply_mask].
  - unfold excluded, excluded_codes. cbn [existsb].
    destruct (Qeq_bool code (inject_Z 3)), (Qeq_bool code (inject_Z 8)),
      (Qeq_bool code (inject_Z 9)), (Qeq_bool code (inject_Z 10));
      reflexivity.
  - reflexivity.
  - reflexivity.
Qed.

Lemma traverse_ext {A B} (f g : A -> option B) l :
  (forall a, f a = g a) -> traverse f l = traverse g l.
Proof.
  intros H. induction l as [|a l IH]; cbn; [reflexivity | ].
  rewrite H, IH. reflexivity.
Qed.

Lemma traverse_bands (f : Bands -> option Bands) scenes :
  option_map (List.map bands)
    (traverse (fun scene => option_map (with_bands scene) (f (bands scene))) scenes)
  = traverse (fun scene => f (bands scene)) scenes.
Proof.
  induction scenes as [|scene scenes IH]; cbn; [reflexivity | ].
  destruct (f (bands scene)) as [b|]; cbn; [ | reflexivity].
  rewrite <- IH.
  destruct (traverse _ scenes); reflexivity.
Qed.


(** The expression of the index has the one band [NDVI]. *)
Lemma index_meaning element (s2 : ee.Image) :
  image_at element (index s2) =
  and_then (image_at element s2) (fun b =>
  and_then (lookup "B8" b) (fun nir =>
  and_then (lookup "B4" b) (fun red =>
  Some [("NDVI", normalized_difference nir red)]))).
Proof.
  unfold index. cbn [image_at].
  destruct (image_at element s2) as [b|]; cbn; [ | reflexivity].
  destruct (lookup "B8" b); cbn; [ | reflexivity].
  destruct (lookup "B4" b); reflexivity.
Qed.




End Meaning.

(** ** The pipeline of a request *)
Section Pipeline.

Context {service : Service}.


Lemma bind_returned {A B} (m : M A) (k : A -> M B) (s : State) b :
  result (bind m k s) = Returned b ->
  exists a,
    result (m s) = Returned a /\
    result (k a (final (m s))) = Returned b /\
    trace (bind m k s) = trace (m s) ++ trace (k a (final (m s))).
Proof.
  unfold bind. destruct (result (m s)) as [a|e]; cbn; [ | discriminate].
  intros H. exists a. auto.
Qed.

Lemma yields_returned {A} (m : M A) a calls (s : State) a' :
  yields m a calls -> result (m s) = Returned a' ->
  a' = a /\ calls_of (trace (m s)) = calls.
Proof. intros Hy Hr. specialize (Hy s). rewrite Hr in Hy. exact Hy. Qed.

(** The calls of a request that went through: the initializer's, those of
    the composite, those of the index, and the map id of that index. *)
Lemma processing_returned start end_ (s : State) response :
  result (processing start end_ s) = Returned response ->
  status response = 200%Z /\
  calls_of (trace (processing start end_ s)) =
    calls_of (trace (_ensure_ee s))
    ++ composite_calls start end_
    ++ [ ee_Image (ee.normalizedDifference (composite start end_) ["B8"; "B4"]);
         ee_Image (index (composite start end_));
         getMapId (index (composite start end_)) NDVI_VIS ].
Proof.
  unfold processing. intros H.
  apply bind_returned in H as (_ & _ & H & T0). rewrite T0. clear T0.
  apply bind_returned in H as (image & Himage & H & T1). rewrite T1. clear T1.
  apply (yields_returned _ _ _ _ _ (s2_yields start end_)) in Himage as [-> C1].
  apply bind_returned in H as (image & Himage & H & T2). rewrite T2. clear T2.
  apply (yields_returned _ _ _ _ _ (ndvi_yields _)) in Himage as [-> C2].
  apply bind_returned in H as ([] & Hcall & H & T3). rewrite T3. clear T3.
  apply bind_returned in H as (url & _ & H & T4). rewrite T4. clear T4.
  injection H as <-. split; [reflexivity | ].
  rewrite !calls_of_app, C1, C2, (call_returned _ _ Hcall).
  cbn [trace ask ret app calls_of List.map fst]. reflexivity.
Qed.


(** A request answered with status 200 went through the [try] block. *)
Lemma get_tiles_ok (request : Request) (s : State) start end_ response :
  method request <> "OPTIONS" ->
  args_get "start" (args request) = Some start ->
  args_get "end" (args request) = Some end_ ->
  result (get_tiles request s) = Returned response ->
  status response = 200%Z ->
  result (processing start end_ s) = Returned response /\
  trace (get_tiles request s) = trace (processing start end_ s).
Proof.
  intros Hm Hs He. unfold get_tiles.
  rewrite (not_options _ Hm), Hs, He.
  destruct ((start =? EmptyString) || (end_ =? EmptyString)).
  - intros [= <-]. discriminate.
  - unfold try_except.
    destruct (result (processing start end_ s)) as [r|e] eqn:Hr.
    + rewrite Hr. auto.
    + cbn. intros [= <-]. discriminate.
Qed.

End Pipeline.

(** ** Mask, composite and index *)
Section Stages.

Context {service : Service} {imagery : Imagery}.




End Stages.

(** ** Runs *)
Section Runs.

(** With a service that answers every call, the request of the module's
    docstring gets the tile URL, after 22 calls. *)
Example summer_request_served :
  let r := get_tiles (service := obliging) summer_request
             (cold (service := obliging) 0%nat) in
  result r =
    Returned {| body := jsonify [("tileUrl", tile_url_template)];
                status := 200;
                headers := [("Access-Control-Allow-Origin", "*")] |} /\
  length (trace r) = 22%nat /\
  _ee_initialized (final r) = true.
Proof. vm_compute. repeat split. Qed.

(** The map id fetch, call number 21, raises. *)
Example summer_request_over_quota :
  let r := get_tiles (service := failing_at 21 quota) summer_request
             (cold (service := failing_at 21 quota) 0%nat) in
  result r =
    Returned {| body := jsonify [("error", "Quota exceeded")];
                status := 500;
                headers := [("Access-Control-Allow-Origin", "*")] |} /\
  nth_error (trace r) 21 =
    Some (getMapId (index (composite "2024-06-01" "2024-08-31")) NDVI_VIS,
          Some quota).
Proof. vm_compute. repeat split. Qed.

(** Of the seven scenes three contribute to the composite. *)
Example summer_composite :
  image_at (imagery := summer) None (composite "2024-06-01" "2024-08-31") =
  Some [("B4", Some 500); ("B8", Some 3200); ("SCL", Some 4)].
Proof. vm_compute. reflexivity. Qed.

Example summer_index :
  image_at (imagery := summer) None
    (index (composite "2024-06-01" "2024-08-31")) =
  Some [("NDVI", Some (2700 # 3700))].
Proof. vm_compute. reflexivity. Qed.

(** The theorems at work on these runs. *)

Lemma preflight_witness :
  get_tiles (service := obliging)
    {| method := "OPTIONS"; args := [("start", "2024-06-01")] |}
    (cold (service := obliging) 0%nat) =
  {| result :=
       Returned
         {| body := text EmptyString;
            status := 204;
            headers :=
              [ ("Access-Control-Allow-Origin", "*");
                ("Access-Control-Allow-Methods", "GET");
                ("Access-Control-Allow-Headers", "Content-Type");
                ("Access-Control-Max-Age", "3600") ] |};
     trace := [];
     final := cold (service := obliging) 0%nat |}.
Proof. apply preflight. reflexivity. Defined.

Lemma missing_parameter_rejected_witness :
  get_tiles (service := obliging)
    {| method := "GET"; args := [("start", "2024-06-01")] |}
    (cold (service := obliging) 0%nat) =
  {| result :=
       Returned
         {| body := jsonify [("error", "Missing start/end parameters")];
            status := 400;
            headers := [("Access-Control-Allow-Origin", "*")] |};
     trace := [];
     final := cold (service := obliging) 0%nat |}.
Proof.
  apply missing_parameter_rejected; [discriminate | right; reflexivity].
Defined.

Lemma empty_parameter_rejected_witness :
  get_tiles (service := obliging)
    {| method := "GET";
       args := [("start", "2024-06-01"); ("end", EmptyString)] |}
    (cold (service := obliging) 0%nat) =
  {| result :=
       Returned
         {| body := jsonify [("error", "Missing start/end parameters")];
            status := 400;
            headers := [("Access-Control-Allow-Origin", "*")] |};
     trace := [];
     final := cold (service := obliging) 0%nat |}.
Proof.
  apply empty_parameter_rejected; [discriminate | right; reflexivity].
Defined.

(** The seventh call of the mask, call number 14, raises. *)
Lemma exception_becomes_500_witness :
  result
    (get_tiles (service := failing_at 14 quota) summer_request
       (cold (service := failing_at 14 quota) 0%nat)) =
  Returned {| body := jsonify [("error", "Quota exceeded")];
              status := 500;
              headers := [("Access-Control-Allow-Origin", "*")] |}.
Proof.
  refine (proj2
            (exception_becomes_500 (service := failing_at 14 quota)
               summer_request (cold (service := failing_at 14 quota) 0%nat)
               "2024-06-01" "2024-08-31" _ eq_refl eq_refl)
            (ee_Image (ee.neq (ee.select ee.element "SCL") 10)) quota _).
  - discriminate.
  - vm_compute. do 14 right. left. reflexivity.
Defined.

Lemma response_shape_witness :
  exists response,
    result
      (get_tiles (service := obliging) summer_request
         (cold (service := obliging) 0%nat)) = Returned response /\
    headers response = [("Access-Control-Allow-Origin", "*")] /\
    ((status response = 200 /\
      exists tile_url, body response = jsonify [("tileUrl", tile_url)]) \/
     ((status response = 400 \/ status response = 500) /\
      exists message, body response = jsonify [("error", message)]))%Z.
Proof. apply response_shape. discriminate. Defined.

(** Three calls of the initializer, the first of which fails in
    [ee.Initialize]: the third is a no-op. *)
Lemma ensure_ee_idempotent_witness :
  let s := cold (service := failing_at 1 quota) 0%nat in
  let second := _ensure_ee (final (_ensure_ee s)) in
  let third := _ensure_ee (final second) in
  third = {| result := Returned tt; trace := []; final := final second |}.
Proof.
  exact (proj2 (proj2 (proj2
           (ensure_ee_idempotent (service := failing_at 1 quota) 3
              (cold (service := failing_at 1 quota) 0%nat))))
           1%nat 2%nat _ _ (le_n 2) eq_refl eq_refl eq_refl).
Defined.

Lemma failed_initialization_is_retried_witness :
  let s := cold (service := failing_at 1 quota) 0%nat in
  let s' := final (_ensure_ee s) in
  let auth := google_auth_default ["https://www.googleapis.com/auth/earthengine"] in
  let w := after auth (world s') in
  _ee_initialized s' = _ee_initialized s /\
  _ee_initialized s' = false /\
  exists outcome rest,
    trace (_ensure_ee s') = (auth, outcome) :: rest /\
    (outcome = None ->
     exists outcome',
       rest = [(ee_Initialize (default_credentials w) "salish-sea-property-mapper",
                outcome')]).
Proof.
  exact (failed_initialization_is_retried (service := failing_at 1 quota)
           (cold (service := failing_at 1 quota) 0%nat) quota eq_refl).
Defined.




End Runs.

(** * Further properties *)

(** ** The two ways through the handler *)
Section Paths.

Context {service : Service}.

Lemma processing_split start end_ :
  processing start end_ = (_ensure_ee ;; after_session start end_).
Proof. reflexivity. Qed.

Lemma bind_run_returned {A B} (m : M A) (k : A -> M B) (s : State) a :
  result (m s) = Returned a ->
  bind m k s =
    {| result := result (k a (final (m s)));
       trace := trace (m s) ++ trace (k a (final (m s)));
       final := final (k a (final (m s))) |}.
Proof. intros H. unfold bind. rewrite H. reflexivity. Qed.

(** What the [try] statement makes of the run of its block. *)
Lemma try_processing start end_ (s : State) :
  let p := processing start end_ s in
  let r := try_except (processing start end_) internal_error s in
  trace r = trace p /\ final r = final p /\
  match result p with
  | Returned response => result r = Returned response
  | Raised e =>
      result r =
        Returned {| body := jsonify [("error", str e)];
                    status := 500;
                    headers := cors_headers |}
  end.
Proof.
  cbn zeta. unfold try_except.
  destruct (result (processing start end_ s)) as [response|e] eqn:Hr.
  - rewrite Hr. auto.
  - cbn. rewrite app_nil_r. auto.
Qed.

(** A request that is not OPTIONS is turned away or runs the [try]
    statement, by whether [not start or not end] holds. *)
Lemma get_tiles_paths (request : Request) (s : State) :
  method request <> "OPTIONS" ->
  (falsy (args_get "start" (args request))
   || falsy (args_get "end" (args request)) = true /\
   get_tiles request s =
     {| result := Returned missing_parameters; trace := []; final := s |}) \/
  (exists start end_,
      args_get "start" (args request) = Some start /\
      args_get "end" (args request) = Some end_ /\
      falsy (args_get "start" (args request))
      || falsy (args_get "end" (args request)) = false /\
      get_tiles request s =
        try_except (processing start end_) internal_error s).
Proof.
  intros Hm. unfold get_tiles. rewrite (not_options _ Hm).
  destruct (args_get "start" (args request)) as [start|]; [ | left; auto].
  destruct (args_get "end" (args request)) as [end_|];
    [ | left; cbn; rewrite orb_true_r; auto].
  cbn [falsy]. destruct ((start =? EmptyString) || (end_ =? EmptyString)).
  - left. auto.
  - right. exists start, end_. auto.
Qed.

Lemma quiet_nil : quiet [].
Proof. constructor. Qed.

Lemma raise_not_quiet tr c e : In (c, Some e) tr -> ~ quiet tr.
Proof. intros Hin Hq. exact (quiet_no_raise _ _ _ Hq Hin). Qed.

(** X1. The status of the response to a request that is not OPTIONS tells
    what happened: it is 400 exactly when [start] or [end] is absent or
    empty, 500 exactly when a call raised, and 200 exactly when both
    parameters were given and no call raised. *)
Theorem status_tells (request : Request) (s : State) :
  method request <> "OPTIONS" ->
  let r := get_tiles request s in
  let turned_away :=
    falsy (args_get "start" (args request))
    || falsy (args_get "end" (args request)) in
  exists response,
    result r = Returned response /\
    (status response = 400%Z <-> turned_away = true) /\
    (status response = 500%Z <-> exists c e, In (c, Some e) (trace r)) /\
    (status response = 200%Z <-> turned_away = false /\ quiet (trace r)).
Proof.
  intros Hm. cbn zeta.
  destruct (get_tiles_paths request s Hm)
    as [[Hf ->] | (start & end_ & _ & _ & Hf & ->)]; rewrite Hf.
  - exists missing_parameters. cbn. repeat split; try discriminate; auto.
    + intros (c & e & []).
    + intros [H _]. discriminate H.
  - destruct (try_processing start end_ s) as (-> & _ & Hres).
    pose proof (disciplined_processing start end_ s) as Hh. unfold honest in Hh.
    destruct (result (processing start end_ s)) as [response|e] eqn:Hr.
    + exists response. split; [exact Hres | ].
      destruct (processing_returned _ _ _ _ Hr) as [H200 _]. rewrite H200.
      repeat split; try discriminate; auto.
      intros (c & e & Hin). exfalso. exact (quiet_no_raise _ _ _ Hh Hin).
    + eexists. split; [exact Hres | ]. cbn [status].
      destruct Hh as (tr & c & Htr & Hq).
      assert (Hin : In (c, Some e) (trace (processing start end_ s))).
      { rewrite Htr. apply in_or_app. right. left. reflexivity. }
      repeat split; try discriminate; auto.
      * intros _. exists c, e. exact Hin.
      * intros [_ Hquiet]. exfalso. exact (raise_not_quiet _ _ _ Hin Hquiet).
Qed.

(** X3. The handler fails fast and does not retry: in every run at most one
    call raises, and no call is issued after it. *)
Theorem no_call_after_a_raise (request : Request) (s : State) :
  let r := get_tiles request s in
  quiet (trace r) \/
  exists tr c e, trace r = tr ++ [(c, Some e)] /\ quiet tr.
Proof.
  cbn zeta. destruct (String.eqb_spec (method request) "OPTIONS") as [Ho | Hm].
  - left. unfold get_tiles. rewrite Ho. apply quiet_nil.
  - destruct (get_tiles_paths request s Hm)
      as [[_ ->] | (start & end_ & _ & _ & _ & ->)].
    + left. apply quiet_nil.
    + destruct (try_processing start end_ s) as (-> & _ & _).
      pose proof (disciplined_processing start end_ s) as Hh. unfold honest in Hh.
      destruct (result (processing start end_ s)) as [response|e].
      * left. exact Hh.
      * right. destruct Hh as (tr & c & Htr & Hq). exists tr, c, e. auto.
Qed.

End Paths.

(** ** The tile URL *)
Section TileUrl.

Context {service : Service}.

Lemma bind_returned_final {A B} (m : M A) (k : A -> M B) (s : State) b :
  result (bind m k s) = Returned b ->
  exists a,
    result (m s) = Returned a /\
    result (k a (final (m s))) = Returned b /\
    final (bind m k s) = final (k a (final (m s))).
Proof.
  unfold bind. destruct (result (m s)) as [a|e]; cbn; [ | discriminate].
  intros H. exists a. auto.
Qed.

Lemma processing_response start end_ (s : State) response :
  result (processing start end_ s) = Returned response ->
  response =
    {| body :=
         jsonify
           [("tileUrl",
             url_format (index (composite start end_)) NDVI_VIS
               (world (final (processing start end_ s))))];
       status := 200;
       headers := cors_headers |}.
Proof.
  unfold processing. intros H.
  apply bind_returned_final in H as (_ & _ & H & F0). rewrite F0. clear F0.
  apply bind_returned_final in H as (image & Himage & H & F1). rewrite F1. clear F1.
  apply (yields_returned _ _ _ _ _ (s2_yields start end_)) in Himage as [-> _].
  apply bind_returned_final in H as (image & Himage & H & F2). rewrite F2. clear F2.
  apply (yields_returned _ _ _ _ _ (ndvi_yields _)) in Himage as [-> _].
  apply bind_returned_final in H as ([] & _ & H & F3). rewrite F3. clear F3.
  apply bind_returned_final in H as (url & Hurl & H & F4). rewrite F4. clear F4.
  cbn in Hurl, H |- *. injection Hurl as <-. injection H as <-. reflexivity.
Qed.

(** X2. The tile URL of a response with status 200 is, unmodified, the
    [url_format] the service holds for the map id of the NDVI of the
    composite over the request's dates, with the module's visualization
    parameters. *)
Theorem tile_url_is_the_service_s (request : Request) (s : State)
    start end_ response :
  method request <> "OPTIONS" ->
  args_get "start" (args request) = Some start ->
  args_get "end" (args request) = Some end_ ->
  result (get_tiles request s) = Returned response ->
  status response = 200%Z ->
  body response =
    jsonify
      [("tileUrl",
        url_format
          (ee.rename
             (ee.normalizedDifference (composite start end_) ["B8"; "B4"])
             "NDVI")
          NDVI_VIS
          (world (final (get_tiles request s))))].
Proof.
  intros Hm Hs He Hr H200.
  destruct (get_tiles_ok _ _ _ _ _ Hm Hs He Hr H200) as [Hp _].
  assert (Hfinal : final (get_tiles request s) = final (processing start end_ s)).
  { destruct (get_tiles_paths request s Hm)
      as [[_ Hrun] | (start' & end' & Hs' & He' & _ & Hrun)].
    - rewrite Hrun in Hr. injection Hr as <-. discriminate H200.
    - rewrite Hs in Hs'. rewrite He in He'.
      injection Hs' as <-. injection He' as <-.
      rewrite Hrun. apply (try_processing start end_ s). }
  rewrite Hfinal, (processing_response _ _ _ _ Hp). reflexivity.
Qed.

End TileUrl.

(** ** How many calls a request costs *)
Section Budget.

Context {service : Service}.

Lemma count_calls_app kind (tr tr' : list Event) :
  count_calls kind (tr ++ tr') =
  (count_calls kind tr + count_calls kind tr')%nat.
Proof.
  unfold count_calls. rewrite calls_of_app, filter_app, length_app. reflexivity.
Qed.


Lemma issues_ret {A} kind (a : A) : issues_at_most kind (ret a) 0.
Proof. intros s. apply le_n. Qed.

Lemma issues_read_global kind : issues_at_most kind read_global 0.
Proof. intros s. apply le_n. Qed.

Lemma issues_write_global kind b : issues_at_most kind (write_global b) 0.
Proof. intros s. apply le_n. Qed.

Lemma issues_ask {A} kind (f : World -> A) : issues_at_most kind (ask f) 0.
Proof. intros s. apply le_n. Qed.

Lemma issues_call_as kind c (b : bool) :
  kind c = b -> issues_at_most kind (call c) (if b then 1 else 0).
Proof.
  intros <- s. unfold call, count_calls.
  destruct (raises c (world s)); cbn; destruct (kind c); cbn; lia.
Qed.

Lemma issues_bind {A B} kind (m : M A) (k : A -> M B) n n' :
  issues_at_most kind m n -> (forall a, issues_at_most kind (k a) n') ->
  issues_at_most kind (bind m k) (n + n').
Proof.
  intros Hm Hk s. specialize (Hm s). unfold bind.
  destruct (result (m s)) as [a|e]; cbn [trace].
  - rewrite count_calls_app. specialize (Hk a (final (m s))). lia.
  - lia.
Qed.

Lemma issues_if {A} kind (b : bool) (m m' : M A) n n' :
  issues_at_most kind m n -> issues_at_most kind m' n' ->
  issues_at_most kind (if b then m else m') (Nat.max n n').
Proof.
  intros Hm Hm' s. destruct b; [specialize (Hm s) | specialize (Hm' s)]; lia.
Qed.

Lemma issues_weaken {A} kind (m : M A) n n' :
  issues_at_most kind m n -> (n <= n')%nat -> issues_at_most kind m n'.
Proof. intros Hm Hle s. specialize (Hm s). lia. Qed.

Ltac issues :=
  repeat first
    [ apply issues_ret | apply issues_read_global | apply issues_write_global
    | apply issues_ask
    | eapply issues_call_as; cbv; reflexivity
    | eapply issues_bind; [ | intros ? ]
    | eapply issues_if ].

Ltac issues_within :=
  eapply issues_weaken; [ issues | vm_compute; repeat constructor ].




Lemma after_session_session_calls start end_ :
  issues_at_most is_session_call (after_session start end_) 0.
Proof.
  unfold after_session, s2, ndvi, collection_map, mask_s2_clouds, geometry_call,
    collection_call, filter_call, image_call.
  issues_within.
Qed.


(** What bounds the [try] block bounds the handler. *)
Lemma get_tiles_issues kind n (request : Request) :
  (forall start end_, issues_at_most kind (processing start end_) n) ->
  issues_at_most kind (get_tiles request) n.
Proof.
  intros Hp s. unfold get_tiles.
  destruct (method request =? "OPTIONS"); [cbn; lia | ].
  destruct (args_get "start" (args request)) as [start|]; [ | cbn; lia].
  destruct (args_get "end" (args request)) as [end_|]; [ | cbn; lia].
  destruct ((start =? EmptyString) || (end_ =? EmptyString)); [cbn; lia | ].
  destruct (try_processing start end_ s) as (-> & _ & _). apply Hp.
Qed.

(** On an initialized process the [try] block is what follows the
    initializer. *)
Lemma processing_warm start end_ (s : State) :
  _ee_initialized s = true ->
  processing start end_ s = after_session start end_ s.
Proof.
  intros H. rewrite processing_split.
  rewrite (bind_run_returned _ _ s tt)
    by (rewrite ensure_ee_warm by exact H; reflexivity).
  rewrite ensure_ee_warm by exact H. cbn [final trace no_op app].
  destruct (after_session start end_ s). reflexivity.
Qed.

Lemma get_tiles_warm kind n (request : Request) (s : State) :
  _ee_initialized s = true ->
  (forall start end_, issues_at_most kind (after_session start end_) n) ->
  (count_calls kind (trace (get_tiles request s)) <= n)%nat.
Proof.
  intros Hw Hp. unfold get_tiles.
  destruct (method request =? "OPTIONS"); [cbn; lia | ].
  destruct (args_get "start" (args request)) as [start|]; [ | cbn; lia].
  destruct (args_get "end" (args request)) as [end_|]; [ | cbn; lia].
  destruct ((start =? EmptyString) || (end_ =? EmptyString)); [cbn; lia | ].
  destruct (try_processing start end_ s) as (-> & _ & _).
  rewrite (processing_warm _ _ _ Hw). apply Hp.
Qed.


End Budget.

(** ** The calls of a request, in order *)
Section Order.

Context {service : Service}.









End Order.

(** ** The session across requests *)
Section Sessions.

Context {service : Service}.

Lemma keeps_global_ask {A} (f : World -> A) : keeps_global (ask f).
Proof. intros s. reflexivity. Qed.

Lemma keeps_global_after_session start end_ :
  keeps_global (after_session start end_).
Proof.
  unfold after_session, s2, ndvi, collection_map, geometry_call,
    collection_call, filter_call, image_call.
  pose proof mask_s2_clouds_keeps_global.
  repeat first
    [ apply keeps_global_bind; [ | intros ? ]
    | apply keeps_global_call
    | apply keeps_global_ask
    | apply keeps_global_ret
    | solve [ auto ] ].
Qed.

Lemma no_session_call_none_established (tr : list Event) :
  count_calls is_session_call tr = 0%nat ->
  existsb session_established tr = false.
Proof.
  unfold count_calls, calls_of.
  induction tr as [|[c o] tr IH]; [reflexivity | ].
  cbn. destruct c; cbn; try discriminate; exact IH.
Qed.

(** The global after the [try] block: set if it was, or if this run
    initialized the session. *)
Lemma processing_flag start end_ (s : State) :
  let r := processing start end_ s in
  _ee_initialized (final r) =
  _ee_initialized s || existsb session_established (trace r).
Proof.
  cbn zeta. destruct (_ee_initialized s) eqn:H.
  - rewrite (processing_warm _ _ _ H), keeps_global_after_session. exact H.
  - rewrite processing_split. unfold bind.
    destruct (ensure_ee_cold s H)
      as [e auth Ha | e auth w init Ha Hi | auth w init Ha Hi];
      cbn [result trace final]; try reflexivity.
    rewrite keeps_global_after_session. reflexivity.
Qed.

Lemma get_tiles_flag (request : Request) (s : State) :
  let r := get_tiles request s in
  _ee_initialized (final r) =
  _ee_initialized s || existsb session_established (trace r).
Proof.
  cbn zeta.
  destruct (String.eqb_spec (method request) "OPTIONS") as [Ho | Hm].
  - unfold get_tiles. rewrite Ho. cbn. rewrite orb_false_r. reflexivity.
  - destruct (get_tiles_paths request s Hm)
      as [[_ ->] | (start & end_ & _ & _ & _ & ->)].
    + cbn. rewrite orb_false_r. reflexivity.
    + destruct (try_processing start end_ s) as (-> & -> & _).
      apply processing_flag.
Qed.

Lemma served_leaves_session (request : Request) (s : State) response :
  result (get_tiles request s) = Returned response ->
  status response = 200%Z ->
  _ee_initialized (final (get_tiles request s)) = true.
Proof.
  destruct (String.eqb_spec (method request) "OPTIONS") as [Ho | Hm].
  - unfold get_tiles. rewrite Ho. intros [= <-]. discriminate.
  - destruct (get_tiles_paths request s Hm)
      as [[_ ->] | (start & end_ & _ & _ & _ & ->)].
    + intros [= <-]. discriminate.
    + destruct (try_processing start end_ s) as (_ & -> & Hres).
      intros Hr H200.
      destruct (result (processing start end_ s)) as [response'|e] eqn:Hp.
      * rewrite processing_split in Hp |- *.
        apply bind_returned_final in Hp as ([] & Hen & _ & ->).
        rewrite keeps_global_after_session. apply ensure_ee_returned, Hen.
      * rewrite Hres in Hr. injection Hr as <-. discriminate H200.
Qed.

(** X6. After any request the global flag is set exactly when it was set
    before or this request's run saw [ee.Initialize] return: the handler
    never clears it, whatever fails later in the request; and a request
    answered with status 200 leaves it set. *)
Theorem session_flag (request : Request) (s : State) :
  let r := get_tiles request s in
  _ee_initialized (final r) =
    _ee_initialized s || existsb session_established (trace r) /\
  (forall response,
      result r = Returned response -> status response = 200%Z ->
      _ee_initialized (final r) = true).
Proof.
  cbn zeta. split; [apply get_tiles_flag | apply served_leaves_session].
Qed.

Lemma established_le_Initialize (tr : list Event) :
  (length (List.filter session_established tr)
   <= count_calls is_Initialize tr)%nat.
Proof.
  unfold count_calls, calls_of.
  induction tr as [|[c o] tr IH]; [apply le_n | ].
  cbn. destruct c, o; cbn; lia.
Qed.

Lemma not_established (tr : list Event) :
  existsb session_established tr = false ->
  length (List.filter session_established tr) = 0%nat.
Proof.
  induction tr as [|ev tr IH]; [reflexivity | ].
  cbn. destruct (session_established ev); [discriminate | exact IH].
Qed.

Lemma processing_Initialize start end_ :
  issues_at_most is_Initialize (processing start end_) 1.
Proof.
  unfold processing, _ensure_ee, s2, ndvi, collection_map, mask_s2_clouds,
    geometry_call, collection_call, filter_call, image_call.
  eapply issues_weaken.
  - repeat first
      [ apply issues_ret | apply issues_read_global | apply issues_write_global
      | apply issues_ask
      | eapply issues_call_as; cbv; reflexivity
      | eapply issues_bind; [ | intros ? ]
      | eapply issues_if ].
  - vm_compute. repeat constructor.
Qed.

Lemma sessions_cons (r : Run Response) runs :
  sessions_established (r :: runs) =
  (length (List.filter session_established (trace r))
   + sessions_established runs)%nat.
Proof.
  unfold sessions_established. cbn. rewrite filter_app, length_app. reflexivity.
Qed.

(** On an initialized process no request touches the session. *)
Lemma serve_warm (requests : list Request) (s : State) :
  _ee_initialized s = true ->
  sessions_established (serve requests s) = 0%nat /\
  Forall (fun r => count_calls is_session_call (trace r) = 0%nat)
    (serve requests s).
Proof.
  revert s. induction requests as [|request requests IH]; intros s Hw.
  - split; [reflexivity | constructor].
  - cbn [serve].
    assert (Hnone : count_calls is_session_call (trace (get_tiles request s)) = 0%nat).
    { apply Nat.le_0_r.
      apply get_tiles_warm; [exact Hw | apply after_session_session_calls]. }
    assert (Hflag : _ee_initialized (final (get_tiles request s)) = true).
    { rewrite get_tiles_flag, Hw. reflexivity. }
    destruct (IH _ Hflag) as [Hrest Hall].
    split; [ | constructor; assumption].
    rewrite sessions_cons, Hrest.
    pose proof (established_le_Initialize (trace (get_tiles request s))) as Hle.
    assert (count_calls is_Initialize (trace (get_tiles request s))
            <= count_calls is_session_call (trace (get_tiles request s)))%nat.
    { unfold count_calls.
      induction (calls_of (trace (get_tiles request s))) as [|c l IHl];
        [apply le_n | ].
      cbn. destruct c; cbn; lia. }
    lia.
Qed.

Lemma serve_sessions (requests : list Request) (s : State) :
  (sessions_established (serve requests s) <= 1)%nat.
Proof.
  revert s. induction requests as [|request requests IH]; intros s.
  - cbn. lia.
  - cbn [serve]. rewrite sessions_cons.
    pose proof (established_le_Initialize (trace (get_tiles request s))) as Hle.
    pose proof (get_tiles_issues is_Initialize 1 request
                  processing_Initialize s) as Hone.
    destruct (_ee_initialized (final (get_tiles request s))) eqn:Hflag.
    + destruct (serve_warm requests _ Hflag) as [-> _]. lia.
    + rewrite get_tiles_flag in Hflag. apply orb_false_iff in Hflag.
      rewrite (not_established _ (proj2 Hflag)). apply IH.
Qed.

Lemma serve_after_initialized (requests : list Request) (s : State) i j ri rj :
  (i < j)%nat ->
  nth_error (serve requests s) i = Some ri ->
  _ee_initialized (final ri) = true ->
  nth_error (serve requests s) j = Some rj ->
  count_calls is_session_call (trace rj) = 0%nat.
Proof.
  revert s i j. induction requests as [|request requests IH];
    intros s i j Hij Hi Hflag Hj.
  - destruct i; discriminate.
  - destruct j as [|j]; [lia | ]. cbn [nth_error serve] in Hj.
    destruct i as [|i]; cbn [nth_error serve] in Hi.
    + injection Hi as <-.
      destruct (serve_warm requests _ Hflag) as [_ Hall].
      rewrite Forall_forall in Hall. apply Hall.
      exact (nth_error_In _ _ Hj).
    + apply (IH (final (get_tiles request s)) i j); [lia | assumption..].
Qed.

(** X7. Over any sequence of requests served by one process,
    [ee.Initialize] returns at most once; and once a request has been
    answered with status 200, no later request resolves credentials or
    initializes the session again. *)
Theorem one_session_per_process (requests : list Request) (s : State) :
  let runs := serve requests s in
  (sessions_established runs <= 1)%nat /\
  (forall i j ri rj response,
      (i < j)%nat ->
      nth_error runs i = Some ri ->
      result ri = Returned response ->
      status response = 200%Z ->
      nth_error runs j = Some rj ->
      count_calls is_session_call (trace rj) = 0%nat).
Proof.
  cbn zeta. split; [apply serve_sessions | ].
  intros i j ri rj response Hij Hi Hr H200 Hj.
  apply (serve_after_initialized requests s i j ri rj Hij Hi); [ | exact Hj].
  assert (Hrun : exists request s', ri = get_tiles request s').
  { clear - Hi. revert s i Hi.
    induction requests as [|request requests IH]; intros s i Hi.
    - destruct i; discriminate.
    - destruct i as [|i]; cbn [nth_error serve] in Hi.
      + injection Hi as <-. eauto.
      + exact (IH _ _ Hi). }
  destruct Hrun as (request & s' & ->).
  exact (served_leaves_session _ _ _ Hr H200).
Qed.

End Sessions.

(** ** The mask, pixel by pixel *)
Section Mask.

Context {imagery : Imagery}.

Lemma lookup_no_data name (b : Bands) :
  lookup name (no_data b) = option_map (fun _ => None) (lookup name b).
Proof.
  unfold no_data. induction b as [|[k v] b IH]; [reflexivity | ].
  cbn. destruct (k =? name); [reflexivity | exact IH].
Qed.

Lemma no_data_twice (b : Bands) : no_data (no_data b) = no_data b.
Proof.
  unfold no_data. rewrite List.map_map. reflexivity.
Qed.

Lemma no_data_names (b : Bands) : List.map fst (no_data b) = List.map fst b.
Proof. unfold no_data. rewrite List.map_map. reflexivity. Qed.

Lemma cloud_masked_fails element image :
  image_at element image = None ->
  image_at element (cloud_masked image) = None.
Proof. intros H. unfold cloud_masked. cbn [image_at]. rewrite H. reflexivity. Qed.

Lemma cloud_mask_spec_outcome (b b' : Bands) :
  cloud_mask_spec b = Some b' -> b' = b \/ b' = no_data b.
Proof.
  unfold cloud_mask_spec.
  destruct (lookup "SCL" b) as [[code|]|]; [ | | discriminate].
  - destruct (excluded code); intros [= <-]; auto.
  - intros [= <-]. auto.
Qed.

(** X8. At every pixel the cloud mask is all or nothing: the masked image
    has the bands of the image, in the same order, and either every sample
    is the image's own or every sample is no data.  It never alters a
    value. *)
Theorem mask_all_or_nothing element (image : ee.Image) (b b' : Bands) :
  image_at element image = Some b ->
  image_at element (cloud_masked image) = Some b' ->
  (b' = b \/ b' = no_data b) /\ List.map fst b' = List.map fst b.
Proof.
  intros Hb Hm. rewrite (cloud_masked_meaning element image b Hb) in Hm.
  destruct (cloud_mask_spec_outcome b b' Hm) as [-> | ->].
  - auto.
  - split; [auto | apply no_data_names].
Qed.

(** X9. The masked image is an error of the service exactly when the image
    itself is one or has no band named SCL. *)
Theorem mask_needs_classification element (image : ee.Image) :
  image_at element (cloud_masked image) = None <->
  image_at element image = None \/
  exists b, image_at element image = Some b /\ lookup "SCL" b = None.
Proof.
  destruct (image_at element image) as [b|] eqn:Hb.
  - rewrite (cloud_masked_meaning element image b Hb). unfold cloud_mask_spec.
    split.
    + intros H. right. exists b. split; [reflexivity | ].
      destruct (lookup "SCL" b) as [[code|]|]; [discriminate.. | reflexivity].
    + intros [H | (b0 & [= <-] & H)]; [discriminate | ]. rewrite H. reflexivity.
  - rewrite (cloud_masked_fails element image Hb). split; auto.
Qed.

Lemma cloud_mask_spec_twice (b b' : Bands) :
  cloud_mask_spec b = Some b' -> cloud_mask_spec b' = Some b'.
Proof.
  unfold cloud_mask_spec.
  destruct (lookup "SCL" b) as [[code|]|] eqn:Hscl; [ | | discriminate].
  - destruct (excluded code) eqn:Hex; intros [= <-].
    + rewrite lookup_no_data, Hscl. cbn. rewrite no_data_twice. reflexivity.
    + rewrite Hscl, Hex. reflexivity.
  - intros [= <-]. rewrite lookup_no_data, Hscl. cbn.
    rewrite no_data_twice. reflexivity.
Qed.

(** X10. Masking a masked image changes nothing: the cloud mask is
    idempotent in what it means. *)
Theorem mask_idempotent element (image : ee.Image) :
  image_at element (cloud_masked (cloud_masked image)) =
  image_at element (cloud_masked image).
Proof.
  destruct (image_at element (cloud_masked image)) as [b'|] eqn:Hm.
  - rewrite (cloud_masked_meaning element _ b' Hm).
    destruct (image_at element image) as [b|] eqn:Hb.
    + rewrite (cloud_masked_meaning element image b Hb) in Hm.
      exact (cloud_mask_spec_twice b b' Hm).
    + rewrite (cloud_masked_fails element image Hb) in Hm. discriminate.
  - apply cloud_masked_fails, Hm.
Qed.

End Mask.

(** ** The composite and the index, pixel by pixel *)
Section Composite.

Context {imagery : Imagery}.

Lemma lookup_map_key {A B} (G : string -> B) (l : list (string * A)) name v :
  lookup name (List.map (fun band => (fst band, G (fst band))) l) = Some v ->
  v = G name.
Proof.
  induction l as [|[k a] l IH]; cbn; [discriminate | ].
  destruct (String.eqb_spec k name) as [-> | _].
  - intros [= <-]. reflexivity.
  - exact IH.
Qed.

Lemma lookup_median name (images : list Bands) sample :
  lookup name (median_bands images) = Some sample ->
  sample = median_sample (band_across name images).
Proof.
  unfold median_bands. destruct images as [|first rest]; [discriminate | ].
  apply (lookup_map_key
           (fun n => median_sample (band_across n (first :: rest)))).
Qed.

Lemma present_cons name (b : Bands) (tail : list Bands) :
  present (band_across name (b :: tail)) =
  match lookup name b with
  | Some (Some x) => x :: present (band_across name tail)
  | _ => present (band_across name tail)
  end.
Proof. cbn. destruct (lookup name b) as [[x|]|]; reflexivity. Qed.

(** The samples that reach the median are those of the clear pixels. *)
Lemma present_masked name (scenes : list Scene) (masked : list Bands) :
  traverse (fun scene => cloud_mask_spec (bands scene)) scenes = Some masked ->
  present (band_across name masked) =
  present
    (band_across name
       (List.map bands
          (List.filter (fun scene => clear_sky (bands scene)) scenes))).
Proof.
  revert masked. induction scenes as [|scene scenes IH]; intros masked.
  - intros [= <-]. reflexivity.
  - cbn [traverse].
    destruct (cloud_mask_spec (bands scene)) as [b1|] eqn:Hm; [ | discriminate].
    cbn [and_then].
    destruct (traverse _ scenes) as [rest|]; [ | discriminate].
    intros [= <-]. specialize (IH rest eq_refl).
    assert (Hblank : forall tail,
               present (band_across name (no_data (bands scene) :: tail)) =
               present (band_across name tail)).
    { intros tail. rewrite present_cons, lookup_no_data.
      destruct (lookup name (bands scene)); reflexivity. }
    unfold cloud_mask_spec in Hm. cbn [List.filter]. unfold clear_sky at 1.
    destruct (lookup "SCL" (bands scene)) as [[code|]|]; [ | | discriminate].
    + destruct (excluded code); injection Hm as <-; cbn [negb].
      * rewrite Hblank. exact IH.
      * cbn [List.map]. rewrite !present_cons, IH. reflexivity.
    + injection Hm as <-. rewrite Hblank. exact IH.
Qed.

(** X11. Each band of the composite is the median of the samples of those
    images that passed the three filters and are clear at the pixel: an
    image whose classification there is 3, 8, 9 or 10, or has no data,
    contributes nothing. *)
Theorem composite_of_clear_observations element start end_
    (scenes : list Scene) (result : Bands) name sample :
  collection_at element (filtered start end_) = Some scenes ->
  image_at element (composite start end_) = Some result ->
  lookup name result = Some sample ->
  sample =
    median_sample
      (band_across name
         (List.map bands
            (List.filter (fun scene => clear_sky (bands scene)) scenes))).
Proof.
  intros Hscenes Hresult Hname.
  unfold composite in Hresult. cbn [image_at collection_at] in Hresult.
  rewrite Hscenes in Hresult. cbn [and_then] in Hresult.
  pose proof (traverse_bands
                (fun b => image_at (Some b) (cloud_masked ee.element)) scenes)
    as Hb.
  destruct (traverse _ scenes) as [masked|]; [ | discriminate].
  cbn [option_map] in Hresult, Hb. injection Hresult as <-.
  rewrite (traverse_ext _ (fun scene => cloud_mask_spec (bands scene))) in Hb
    by (intros scene; apply cloud_masked_meaning; reflexivity).
  apply lookup_median in Hname. subst sample.
  unfold median_sample.
  rewrite (present_masked name scenes _ (eq_sym Hb)). reflexivity.
Qed.



(** X13. Where both bands have data that is not negative and not zero in
    both, the index lies between -1 and 1. *)
Theorem ndvi_between_minus_one_and_one element (image : ee.Image) (b : Bands)
    (nir red : Q) :
  image_at element image = Some b ->
  lookup "B8" b = Some (Some nir) ->
  lookup "B4" b = Some (Some red) ->
  0 <= nir -> 0 <= red -> 0 < nir + red ->
  exists v,
    image_at element (index image) = Some [("NDVI", Some v)] /\
    -1 <= v /\ v <= 1.
Proof.
  intros Hb Hnir Hred Hn Hr Hsum.
  exists ((nir - red) / (nir + red)). split.
  - rewrite index_meaning, Hb. cbn [and_then]. rewrite Hnir, Hred.
    cbn [and_then]. unfold normalized_difference.
    destruct (Qeq_bool (nir + red) 0) eqn:Hz; [ | reflexivity].
    apply Qeq_bool_iff in Hz. rewrite Hz in Hsum.
    exfalso. exact (Qlt_irrefl 0 Hsum).
  - split.
    + apply Qle_shift_div_l; [exact Hsum | lra].
    + apply Qle_shift_div_r; [exact Hsum | lra].
Qed.

(** X14. The index has a value exactly when the image has one with both a
    band B8 and a band B4; it then has the single band NDVI, whatever other
    bands the image has. *)
Theorem index_single_band element (image : ee.Image) :
  (forall b',
      image_at element (index image) = Some b' ->
      exists sample, b' = [("NDVI", sample)]) /\
  (image_at element (index image) <> None <->
   exists b nir red,
     image_at element image = Some b /\
     lookup "B8" b = Some nir /\ lookup "B4" b = Some red).
Proof.
  rewrite index_meaning.
  destruct (image_at element image) as [b|]; cbn [and_then].
  - destruct (lookup "B8" b) as [nir|] eqn:Hnir; cbn [and_then].
    + destruct (lookup "B4" b) as [red|] eqn:Hred; cbn [and_then].
      * split.
        -- intros b' [= <-]. eexists. reflexivity.
        -- split; [ | intros _; discriminate].
           intros _. exists b, nir, red. auto.
      * split; [discriminate | ].
        split; [intros H; elim H; reflexivity | ].
        intros (b0 & n & r & [= <-] & _ & H). congruence.
    + split; [discriminate | ].
      split; [intros H; elim H; reflexivity | ].
      intros (b0 & n & r & [= <-] & H & _). congruence.
  - split; [discriminate | ].
    split; [intros H; elim H; reflexivity | ].
    intros (b0 & n & r & H & _). discriminate H.
Qed.

End Composite.

(** ** The calls of the initializer *)
Section Initializer.

Context {service : Service}.

(** X15. The initializer issues no call exactly when the flag is set;
    otherwise it resolves credentials first, and [ee.Initialize] is only ever
    called after that returned, with the credentials it gave and the
    module's project.  It returns exactly when it leaves the flag set. *)
Theorem initializer_calls (s : State) :
  let r := _ensure_ee s in
  let auth := google_auth_default ["https://www.googleapis.com/auth/earthengine"] in
  (trace r = [] <-> _ee_initialized s = true) /\
  (forall credentials project outcome,
      In (ee_Initialize credentials project, outcome) (trace r) ->
      trace r =
        [ (auth, None);
          (ee_Initialize (default_credentials (after auth (world s)))
             "salish-sea-property-mapper", outcome) ]) /\
  (result r = Returned tt <-> _ee_initialized (final r) = true).
Proof.
  cbn zeta. destruct (_ee_initialized s) eqn:H.
  - rewrite (ensure_ee_warm s H). cbn. repeat split; auto.
    intros credentials project outcome [].
  - destruct (ensure_ee_cold s H)
      as [e auth Ha | e auth w init Ha Hi | auth w init Ha Hi];
      subst auth; try subst w init; cbn [trace result final _ee_initialized].
    + repeat split; try discriminate.
      intros credentials project outcome [Hin | []]. discriminate Hin.
    + repeat split; try discriminate.
      intros credentials project outcome [Hin | [Hin | []]];
        [discriminate Hin | ].
      injection Hin as <- <- <-. reflexivity.
    + repeat split; try discriminate.
      intros credentials project outcome [Hin | [Hin | []]];
        [discriminate Hin | ].
      injection Hin as <- <- <-. reflexivity.
Qed.

End Initializer.

(** ** Further runs *)
Section FurtherRuns.

Lemma status_tells_witness :
  let r := get_tiles (service := failing_at 21 quota) summer_request
             (cold (service := failing_at 21 quota) 0%nat) in
  let turned_away :=
    falsy (args_get "start" (args summer_request))
    || falsy (args_get "end" (args summer_request)) in
  exists response,
    result r = Returned response /\
    (status response = 400%Z <-> turned_away = true) /\
    (status response = 500%Z <-> exists c e, In (c, Some e) (trace r)) /\
    (status response = 200%Z <-> turned_away = false /\ quiet (trace r)).
Proof. apply status_tells. discriminate. Defined.

Lemma tile_url_is_the_service_s_witness :
  body summer_response =
  jsonify
    [("tileUrl",
      url_format (Service := obliging)
        (ee.rename
           (ee.normalizedDifference (composite "2024-06-01" "2024-08-31")
              ["B8"; "B4"])
           "NDVI")
        NDVI_VIS
        (world
           (final
              (get_tiles (service := obliging) summer_request
                 (cold (service := obliging) 0%nat)))))].
Proof.
  refine (tile_url_is_the_service_s (service := obliging) summer_request
            (cold (service := obliging) 0%nat) "2024-06-01" "2024-08-31"
            summer_response _ eq_refl eq_refl eq_refl eq_refl).
  discriminate.
Defined.



Lemma session_flag_witness :
  _ee_initialized
    (final
       (get_tiles (service := obliging) summer_request
          (cold (service := obliging) 0%nat))) = true.
Proof.
  exact (proj2
           (session_flag (service := obliging) summer_request
              (cold (service := obliging) 0%nat))
           summer_response eq_refl eq_refl).
Defined.

Lemma one_session_per_process_witness :
  let s := cold (service := obliging) 0%nat in
  let first := get_tiles (service := obliging) summer_request s in
  let second := get_tiles open_ended_request (final first) in
  let third := get_tiles summer_request (final second) in
  count_calls is_session_call (trace third) = 0%nat.
Proof.
  exact (proj2
           (one_session_per_process (service := obliging)
              [summer_request; open_ended_request; summer_request]
              (cold (service := obliging) 0%nat))
           0%nat 2%nat _ _ summer_response (le_S 1 1 (le_n 1))
           eq_refl eq_refl eq_refl eq_refl).
Defined.

Lemma mask_all_or_nothing_witness :
  (no_data cloudy_pixel = cloudy_pixel \/
   no_data cloudy_pixel = no_data cloudy_pixel) /\
  List.map fst (no_data cloudy_pixel) = List.map fst cloudy_pixel.
Proof.
  exact (mask_all_or_nothing (imagery := summer) (Some cloudy_pixel)
           ee.element cloudy_pixel (no_data cloudy_pixel) eq_refl eq_refl).
Defined.

Lemma mask_needs_classification_witness :
  image_at (imagery := summer) (Some unclassified_pixel)
    (cloud_masked ee.element) = None.
Proof.
  apply (proj2 (mask_needs_classification (imagery := summer)
                  (Some unclassified_pixel) ee.element)).
  right. exists unclassified_pixel. split; reflexivity.
Defined.

Lemma composite_of_clear_observations_witness :
  Some 3200 =
  median_sample (imagery := summer)
    (band_across "B8"
       (List.map bands
          (List.filter (fun scene => clear_sky (bands scene))
             summer_selection))).
Proof.
  exact (composite_of_clear_observations (imagery := summer) None
           "2024-06-01" "2024-08-31" summer_selection
           [("B4", Some 500); ("B8", Some 3200); ("SCL", Some 4)]
           "B8" (Some 3200) eq_refl eq_refl eq_refl).
Defined.


Lemma ndvi_between_minus_one_and_one_witness :
  exists v,
    image_at (imagery := summer) (Some leafy_pixel) (index ee.element)
      = Some [("NDVI", Some v)] /\
    -1 <= v /\ v <= 1.
Proof.
  refine (ndvi_between_minus_one_and_one (imagery := summer)
            (Some leafy_pixel) ee.element leafy_pixel 3200 500
            eq_refl eq_refl eq_refl _ _ _); lra.
Defined.

Lemma index_single_band_witness :
  exists sample, [("NDVI", Some (2700 # 3700))] = [("NDVI", sample)].
Proof.
  exact (proj1 (index_single_band (imagery := summer) (Some leafy_pixel)
                  ee.element)
           [("NDVI", Some (2700 # 3700))] eq_refl).
Defined.

Lemma initializer_calls_witness :
  let s := cold (service := failing_at 1 quota) 0%nat in
  let auth := google_auth_default ["https://www.googleapis.com/auth/earthengine"] in
  trace (_ensure_ee s) =
    [ (auth, None);
      (ee_Initialize (default_credentials (after auth (world s)))
         "salish-sea-property-mapper", Some quota) ].
Proof.
  refine (proj1 (proj2
            (initializer_calls (service := failing_at 1 quota)
               (cold (service := failing_at 1 quota) 0%nat)))
            (credentials_handle 1) "salish-sea-property-mapper" (Some quota) _).
  right. left. reflexivity.
Defined.

End FurtherRuns.
